(** * Magic Sorting System: the function generator [generate.js]

    A shallow embedding of the code generator of the data pack
    (lines 17 to 114 of [generate.js]: the header of [sort.mcfunction],
    [write_sort_file], the loop over [config.groups] and the final write of
    the dispatcher), followed by the properties of its output.

    Conventions of the embedding:
    - JavaScript strings are [string]; a property that may be absent from
      [config.json] is an [option], [None] standing for [undefined];
    - the three module-level objects used as sets ([all_item_ids],
      [all_group_ids], [all_item_frame_ids]) are [gset string], and the
      [in] operator also answers for the names inherited from
      [Object.prototype];
    - [fs.writeFileSync] and [console.error] are recorded, oldest first, in
      the state that the loops thread; a write is recorded with the name
      handed to [Path.join(func_dir, _)], and the path this name resolves to
      is left to a parameter [path_join], since [Path.join] belongs to
      Node and not to the generator;
    - [total_items] is a [nat] (the double of the source counts exactly far
      beyond any array length). *)

From Stdlib Require Import Ascii String DecimalString.
From stdpp Require Import gmap strings list.

Set Warnings "-clear-no-such-hyp".

Local Open Scope string_scope.
Local Open Scope list_scope.

(** ** Strings of the JavaScript runtime *)

Module Js.

(** The double quote and the line feed. *)
Definition dq : string := String "034"%char "".
Definition nl : string := String "010"%char "".

(** [String(v)] for a value that is a string or [undefined]; this is what
    [+] and the computed property key do to their operand. *)
Definition to_string (v : option string) : string :=
  match v with
  | Some s => s
  | None => "undefined"
  end.

(** Truthiness of a string or [undefined]: the empty string is falsy. *)
Definition truthy (v : option string) : bool :=
  match v with
  | Some (String _ _) => true
  | _ => false
  end.

(** [String(n)] for a natural number. *)
Definition of_nat (n : nat) : string :=
  NilEmpty.string_of_uint (Nat.to_uint n).

(** [\w] of a regular expression without the unicode flag. *)
Definition is_word_char (c : ascii) : bool :=
  let n := nat_of_ascii c in
  (((97 <=? n) && (n <=? 122)) || ((65 <=? n) && (n <=? 90))
   || ((48 <=? n) && (n <=? 57)) || (n =? 95))%nat.

(** [s.replace(/\W+/g, '')]. *)
Fixpoint strip_non_word (s : string) : string :=
  match s with
  | "" => ""
  | String c s' =>
      if is_word_char c then String c (strip_non_word s')
      else strip_non_word s'
  end.

(** [s.split(sep)] for a separator of one character. *)
Fixpoint split (sep : ascii) (s : string) : list string :=
  match s with
  | "" => [""]
  | String c s' =>
      if Ascii.eqb c sep then "" :: split sep s'
      else match split sep s' with
           | seg :: segs => String c seg :: segs
           | [] => [String c ""]
           end
  end.

(** [a.join(sep)] for an array of strings. *)
Fixpoint join (sep : string) (a : list string) : string :=
  match a with
  | [] => ""
  | [x] => x
  | x :: rest => x +:+ sep +:+ join sep rest
  end.

(** The property names every object literal inherits from
    [Object.prototype] (Node.js). *)
Definition Object_prototype : list string :=
  [ "constructor"; "__defineGetter__"; "__defineSetter__";
    "hasOwnProperty"; "__lookupGetter__"; "__lookupSetter__";
    "isPrototypeOf"; "propertyIsEnumerable"; "toString"; "valueOf";
    "__proto__"; "toLocaleString" ].

Definition inherited (k : string) : bool :=
  bool_decide (k ∈ Object_prototype).

(** [k in o] for an object [o] created by [{}] whose own keys are [o]. *)
Definition has (k : string) (o : gset string) : bool :=
  bool_decide (k ∈ o) || inherited k.

End Js.

(** ** The configuration ([config.json]) *)

Record group := Group {
  group_name : string;
  items : option (list string);
  item_frame : option string;
  fallback : option string
}.

Record config := Config {
  groups : list group;
  effects : option (list string);
  final_fallback : option string;
  group_name_in_frame : option string;
  item_name_in_frame : option string
}.

(** ** What the run leaves behind *)

(** The four messages of [console.error], with the text they interpolate. *)
Inductive error :=
| DuplicateGroupId (group_id : string)
| DuplicateFrameTarget (target : string)
| DuplicateItemId (item_id : string)
| InvalidGroup (group_id : string).

Definition error_message (e : error) : string :=
  match e with
  | DuplicateGroupId group_id => "ERROR: Duplicate Group ID: " +:+ group_id
  | DuplicateFrameTarget target => "ERROR: Duplicate Item Frame ID: " +:+ target
  | DuplicateItemId item_id => "ERROR: Duplicate Item ID: " +:+ item_id
  | InvalidGroup group_id => "ERROR: Invalid group, skipping: " +:+ group_id
  end.

#[global] Instance error_eq_dec : EqDecision error.
Proof. solve_decision. Defined.

(** Which call of [fs.writeFileSync] wrote a file: line 90 (a group), line 96
    (an item) or line 114 (the dispatcher). *)
Inductive artifact := GroupArtifact | ItemArtifact | Dispatcher.

#[global] Instance artifact_eq_dec : EqDecision artifact.
Proof. solve_decision. Defined.

Record write := Write {
  kind : artifact;
  filename : string;
  content : string
}.

(** The module-level variables, the files written and the errors logged. *)
Record state := State {
  sort_lines : list string;
  total_items : nat;
  all_item_ids : gset string;
  all_group_ids : gset string;
  all_item_frame_ids : gset string;
  written : list write;
  logged : list error
}.

Definition push_line (l : string) (st : state) : state :=
  State (sort_lines st ++ [l]) (total_items st) (all_item_ids st)
        (all_group_ids st) (all_item_frame_ids st) (written st) (logged st).

Definition incr_total_items (st : state) : state :=
  State (sort_lines st) (S (total_items st)) (all_item_ids st)
        (all_group_ids st) (all_item_frame_ids st) (written st) (logged st).

Definition mark_item (item_id : string) (st : state) : state :=
  State (sort_lines st) (total_items st) ({[item_id]} ∪ all_item_ids st)
        (all_group_ids st) (all_item_frame_ids st) (written st) (logged st).

Definition mark_group (group_id : string) (st : state) : state :=
  State (sort_lines st) (total_items st) (all_item_ids st)
        ({[group_id]} ∪ all_group_ids st) (all_item_frame_ids st)
        (written st) (logged st).

Definition mark_item_frame (target : string) (st : state) : state :=
  State (sort_lines st) (total_items st) (all_item_ids st)
        (all_group_ids st) ({[target]} ∪ all_item_frame_ids st)
        (written st) (logged st).

Definition write_file (w : write) (st : state) : state :=
  State (sort_lines st) (total_items st) (all_item_ids st)
        (all_group_ids st) (all_item_frame_ids st) (written st ++ [w])
        (logged st).

Definition console_error (e : error) (st : state) : state :=
  State (sort_lines st) (total_items st) (all_item_ids st)
        (all_group_ids st) (all_item_frame_ids st) (written st)
        (logged st ++ [e]).

(** ** [write_sort_file] (lines 52 to 68) *)

Definition name_selector (name : option string) : string :=
  if Js.truthy name then
    ",components:{" +:+ Js.dq +:+ "minecraft:custom_name" +:+ Js.dq +:+ ":'"
      +:+ Js.dq +:+ Js.to_string name +:+ Js.dq +:+ "'}"
  else "".

Definition entity_match_selector (target : string) (name : option string) : string :=
  "@e[type=minecraft:item_frame,nbt={Item:{id:" +:+ Js.dq +:+ target +:+ Js.dq
    +:+ name_selector name +:+ "}},distance=..128]".

Definition entity_dest_selector (target : string) (name : option string) : string :=
  "@e[limit=1,sort=nearest,type=minecraft:item_frame,nbt={Item:{id:" +:+ Js.dq
    +:+ target +:+ Js.dq +:+ name_selector name +:+ "}},distance=..128]".

Definition if_line (target : string) (name : option string) : string :=
  "execute as @s if entity " +:+ entity_match_selector target name
    +:+ " run teleport @s " +:+ entity_dest_selector target name.

Definition unless_line (fallback_action : option string) (target : string)
    (name : option string) : string :=
  "execute as @s unless entity " +:+ entity_match_selector target name
    +:+ " run " +:+ Js.to_string fallback_action.

Definition sort_file_content (fallback_action : option string) (target : string)
    (name : option string) : string :=
  if_line target name +:+ Js.nl
    +:+ unless_line fallback_action target name +:+ Js.nl.

Definition write_sort_file (k : artifact) (file : string)
    (fallback_action : option string) (target : string) (name : option string)
    (st : state) : state :=
  write_file (Write k file (sort_file_content fallback_action target name)) st.

(** ** The header of [sort.mcfunction] (lines 17 to 42) *)

Definition group_names (cfg : config) : list string :=
  map group_name (groups cfg).

Definition effect_line (effect : string) : string :=
  "execute at @s unless score #mss_cooldown mss_cooldown matches 1 run " +:+ effect.

Definition effect_lines (cfg : config) : list string :=
  match effects cfg with
  | Some l => map effect_line l
  | None => []
  end.

Definition header (cfg : config) : list string :=
  [ "# Magic Sorting System v2.0 -- Sort Single Item";
    "# Expects input @s from previous execute / run";
    "# " +:+ Js.of_nat (length (group_names cfg)) +:+ " Groups: "
      +:+ Js.join ", " (group_names cfg);
    "" ]
  ++ effect_lines cfg
  ++ [ "scoreboard players set #mss_cooldown mss_cooldown 1"; "" ].

(** ** The loop over the groups (lines 70 to 112) *)

Definition group_id_of (g : group) : string :=
  Js.strip_non_word (group_name g).

(** The key under which [target in all_item_frame_ids] looks a frame up. *)
Definition target_key (g : group) : string :=
  Js.to_string (item_frame g).

Definition item_name_of (item_id : string) : option string :=
  Js.split ":" item_id !! 1%nat.

Definition item_file_name (item_id : string) : string :=
  "sort_item_" +:+ Js.to_string (item_name_of item_id) +:+ ".mcfunction".

Definition group_file_name (group_id : string) : string :=
  "sort_" +:+ group_id +:+ ".mcfunction".

Definition dispatch_line (item_id : string) : string :=
  "execute as @s if entity @s[type=item,nbt={Item:{id:" +:+ Js.dq +:+ item_id
    +:+ Js.dq +:+ "}}] run function mss:sort_item_"
    +:+ Js.to_string (item_name_of item_id).

(** The body of [items.forEach] (lines 94 to 106). *)
Definition process_item (cfg : config) (group_id : string) (st : state)
    (item_id : string) : state :=
  let st := write_sort_file ItemArtifact (item_file_name item_id)
              (Some ("function mss:sort_" +:+ group_id)) item_id
              (item_name_in_frame cfg) st in
  let st := if Js.has item_id (all_item_ids st)
            then console_error (DuplicateItemId item_id) st else st in
  let st := mark_item item_id st in
  let st := push_line (dispatch_line item_id) st in
  incr_total_items st.

Definition group_fallback (cfg : config) (g : group) : option string :=
  if Js.truthy (fallback g)
  then Some ("function mss:sort_" +:+ Js.to_string (fallback g))
  else final_fallback cfg.

(** [items && items.length && target] (line 87). *)
Definition complete (g : group) : bool :=
  match items g with
  | Some (_ :: _) => Js.truthy (item_frame g)
  | _ => false
  end.

Definition items_of (g : group) : list string :=
  default [] (items g).

(** The body of [config.groups.forEach] (lines 71 to 111). *)
Definition process_group (cfg : config) (st : state) (g : group) : state :=
  let group_id := group_id_of g in
  if Js.has group_id (all_group_ids st) then
    console_error (DuplicateGroupId group_id) st
  else
    let st := mark_group group_id st in
    if Js.has (target_key g) (all_item_frame_ids st) then
      console_error (DuplicateFrameTarget (target_key g)) st
    else
      let st := mark_item_frame (target_key g) st in
      if complete g then
        let st := write_sort_file GroupArtifact (group_file_name group_id)
                    (group_fallback cfg g) (target_key g)
                    (group_name_in_frame cfg) st in
        foldl (process_item cfg group_id) st (items_of g)
      else
        console_error (InvalidGroup group_id) st.

Definition process_groups (cfg : config) (st : state) (gs : list group) : state :=
  foldl (process_group cfg) st gs.

(** The state when the loop starts: the header is in [sort_lines], the
    counter is zero and nothing has been written or logged. [start] is the
    state the script builds, with the three sets empty (lines 47 to 50). *)
Definition start_with (cfg : config) (item_ids group_ids frame_ids : gset string) : state :=
  State (header cfg) 0 item_ids group_ids frame_ids [] [].

Definition start (cfg : config) : state := start_with cfg ∅ ∅ ∅.

(** Line 114. *)
Definition dispatcher_content (st : state) : string :=
  Js.join Js.nl (sort_lines st) +:+ Js.nl.

Definition finish (st : state) : state :=
  write_file (Write Dispatcher "sort.mcfunction" (dispatcher_content st)) st.

(** The generator up to line 114: the loop over the groups, then the
    dispatcher. The three sets are created empty by [start] each time. *)
Definition compile (cfg : config) : state :=
  finish (process_groups cfg (start cfg) (groups cfg)).

(** [fs.writeFileSync] for each write in turn, on the directory [dir]: the
    file at the path the name resolves to is created or replaced. *)
Definition write_files {P : Type} `{Countable P} (path_join : string → P)
    (ws : list write) (dir : gmap P string) : gmap P string :=
  foldl (fun d w => <[path_join (filename w) := content w]> d) dir ws.

(** The files the writes leave in a directory that was empty. *)
Definition files_of {P : Type} `{Countable P} (path_join : string → P)
    (ws : list write) : gmap P string :=
  write_files path_join ws ∅.

(** ** Configurations *)

Definition ores : group :=
  Group "Ores" (Some ["minecraft:iron_ingot"; "minecraft:gold_ingot"])
        (Some "minecraft:item_frame_1") None.

Definition ores_config : config := Config [ores] None None None None.


(** Two identifiers that differ in their namespace only. *)
Definition stones : group :=
  Group "Stones" (Some ["minecraft:stone"; "mymod:stone"])
        (Some "minecraft:cobblestone") None.

Definition stones_config : config :=
  Config [stones] None (Some "kill @s") None None.

(** One identifier listed twice in a group. *)
Definition iron_twice : group :=
  Group "Ores" (Some ["minecraft:iron_ingot"; "minecraft:iron_ingot"])
        (Some "minecraft:iron_block") None.

Definition iron_twice_config : config :=
  Config [iron_twice] None (Some "kill @s") None None.

(** Two groups without an item frame. *)
Definition alpha : group := Group "Alpha" (Some ["minecraft:dirt"]) None None.
Definition beta : group := Group "Beta" (Some ["minecraft:sand"]) None None.

Definition frameless_config : config :=
  Config [alpha; beta] None (Some "kill @s") None None.

(** A group that repeats the frame of an earlier one, then a group that
    repeats its name. *)
Definition iron : group :=
  Group "Ores" (Some ["minecraft:iron_ingot"]) (Some "minecraft:iron_block") None.
Definition gems_on_iron : group :=
  Group "Gems" (Some ["minecraft:diamond"]) (Some "minecraft:iron_block") None.
Definition gems : group :=
  Group "Gems" (Some ["minecraft:emerald"]) (Some "minecraft:emerald_block") None.

Definition shared_frame_config : config :=
  Config [iron; gems_on_iron; gems] None (Some "kill @s") None None.

(** Identifiers without a colon. *)
Definition sticks : group :=
  Group "Misc" (Some ["stick"; "bone"]) (Some "minecraft:chest") None.

Definition sticks_config : config :=
  Config [sticks] None (Some "kill @s") None None.

(** An identifier with two colons. *)
Definition potions_config : config :=
  Config [Group "Potions" (Some ["minecraft:potion:healing"])
                (Some "minecraft:potion") None]
         None (Some "kill @s") None None.

(** ** Notions of the specification *)

(** Does [c] occur in [s]? *)
Fixpoint has_char (c : ascii) (s : string) : bool :=
  match s with
  | "" => false
  | String a s' => Ascii.eqb a c || has_char c s'
  end.

(** The part of [s] before the first [c] (all of [s] when there is none). *)
Fixpoint until_char (c : ascii) (s : string) : string :=
  match s with
  | "" => ""
  | String a s' => if Ascii.eqb a c then "" else String a (until_char c s')
  end.

(** The substring of [s] after the first [c], if [c] occurs. *)
Fixpoint after_char (c : ascii) (s : string) : option string :=
  match s with
  | "" => None
  | String a s' => if Ascii.eqb a c then Some s' else after_char c s'
  end.

(** The lines of a text file: what the line feeds terminate. *)
Definition text_lines (s : string) : list string :=
  removelast (Js.split "010" s).

(** A line of the dispatcher that tests the item held by [@s]. *)
Definition is_dispatch_line (l : string) : bool :=
  String.prefix ("execute as @s if entity @s[type=item,nbt={Item:{id:" +:+ Js.dq) l.

(** Every element of a list together with the elements before it. *)
Fixpoint with_prefixes {A} (before l : list A) : list (list A * A) :=
  match l with
  | [] => []
  | x :: l' => (before, x) :: with_prefixes (before ++ [x]) l'
  end.

(** The duplicate-groupId check, told from the configuration alone: the id
    is not an inherited name and no earlier group derives the same id. *)
Definition passes_group_id_check (before : list group) (g : group) : bool :=
  negb (Js.inherited (group_id_of g))
  && forallb (fun p => negb (String.eqb (group_id_of p) (group_id_of g))) before.

(** A frame target is taken by an earlier group that passed the groupId
    check. *)
Definition frame_taken (before : list group) (k : string) : bool :=
  existsb (fun bp => passes_group_id_check bp.1 bp.2
                     && String.eqb (target_key bp.2) k)
          (with_prefixes [] before).

Definition passes_item_frame_check (before : list group) (g : group) : bool :=
  negb (Js.inherited (target_key g)) && negb (frame_taken before (target_key g)).

(** A group that passes the three checks. *)
Definition valid (before : list group) (g : group) : bool :=
  passes_group_id_check before g && passes_item_frame_check before g
  && complete g.

Definition valid_groups (gs : list group) : list group :=
  map snd (filter (fun bg => valid bg.1 bg.2) (with_prefixes [] gs)).

(** The items of the valid groups, in the order of the configuration. *)
Definition processed_items (gs : list group) : list string :=
  concat (map items_of (valid_groups gs)).

(** The per-group writes of a run. *)
Definition group_artifacts (ws : list write) : list write :=
  filter (fun w => kind w = GroupArtifact) ws.

(** What line 96 writes for an item of a group. *)
Definition item_write (cfg : config) (group_id item_id : string) : write :=
  Write ItemArtifact (item_file_name item_id)
        (sort_file_content (Some ("function mss:sort_" +:+ group_id)) item_id
                           (item_name_in_frame cfg)).

(** What line 90 writes for a group. *)
Definition group_write (cfg : config) (g : group) : write :=
  Write GroupArtifact (group_file_name (group_id_of g))
        (sort_file_content (group_fallback cfg g) (target_key g)
                           (group_name_in_frame cfg)).

(** The errors of a pass over [l] that starts with the identifiers [seen]. *)
Fixpoint item_errors (seen : gset string) (l : list string) : list error :=
  match l with
  | [] => []
  | x :: l' =>
      (if Js.has x seen then [DuplicateItemId x] else [])
      ++ item_errors ({[x]} ∪ seen) l'
  end.

(** The sets tell what the groups already processed have left in them. *)
Definition sets_reflect (before : list group) (st : state) : Prop :=
  (∀ k, Js.has k (all_group_ids st)
        = Js.inherited k
          || existsb (fun p => String.eqb (group_id_of p) k) before)
  ∧ (∀ k, Js.has k (all_item_frame_ids st)
          = Js.inherited k || frame_taken before k).

(** The error that turns a group away, if any: the three checks in the
    order of the loop. *)
Definition rejection (before : list group) (g : group) : option error :=
  if negb (passes_group_id_check before g)
  then Some (DuplicateGroupId (group_id_of g))
  else if negb (passes_item_frame_check before g)
  then Some (DuplicateFrameTarget (target_key g))
  else if negb (complete g)
  then Some (InvalidGroup (group_id_of g))
  else None.

(** The files a valid group has written for it: its own, then one for each
    of its items. *)
Definition artifacts_of (cfg : config) (g : group) : list write :=
  group_write cfg g :: map (item_write cfg (group_id_of g)) (items_of g).

(** What [console.error] prints while a group is processed. *)
Definition group_errors (before : list group) (g : group) : list error :=
  match rejection before g with
  | Some e => [e]
  | None => item_errors (list_to_set (processed_items before)) (items_of g)
  end.

(** A string without a line feed, and a configuration whose group names,
    effects and processed item identifiers are such strings. *)
Definition single_line (s : string) : Prop := has_char "010" s = false.

Definition config_single_line (cfg : config) : Prop :=
  Forall single_line (group_names cfg)
  ∧ Forall single_line (default [] (effects cfg))
  ∧ Forall single_line (processed_items (groups cfg)).

(** ** Further notions *)

(** Every character of [s] satisfies [p]. *)
Fixpoint all_chars (p : ascii → bool) (s : string) : bool :=
  match s with
  | "" => true
  | String a s' => p a && all_chars p s'
  end.

(** The errors of the loop over the items, as opposed to those that turn a
    group away. *)
Definition is_item_error (e : error) : bool :=
  match e with
  | DuplicateItemId _ => true
  | _ => false
  end.

#[global] Instance write_eq_dec : EqDecision write.
Proof. solve_decision. Defined.

(** The per-item writes of a run. *)
Definition item_artifacts (ws : list write) : list write :=
  filter (fun w => kind w = ItemArtifact) ws.

(** The errors that turn groups away, in the order of the configuration. *)
Definition rejections (gs : list group) : list error :=
  omap (fun bg => rejection bg.1 bg.2) (with_prefixes [] gs).

(** All the item identifiers a configuration lists. *)
Definition all_items (gs : list group) : list string :=
  concat (map items_of gs).

(** A configuration the loop has nothing to say about: ids and frames are
    pairwise distinct, every group has items and a frame, no identifier is
    listed twice, and none of these is a name inherited from
    [Object.prototype]. *)
Definition well_formed (gs : list group) : Prop :=
  NoDup (map group_id_of gs)
  ∧ NoDup (map target_key gs)
  ∧ Forall (fun g => complete g = true
                     ∧ Js.inherited (group_id_of g) = false
                     ∧ Js.inherited (target_key g) = false) gs
  ∧ NoDup (all_items gs)
  ∧ Forall (fun x => Js.inherited x = false) (all_items gs).

(** [st'] has only added to [st]: lines, files and errors were appended,
    the counter did not go down and the three sets did not lose a key. *)
Definition extends (st st' : state) : Prop :=
  sort_lines st `prefix_of` sort_lines st'
  ∧ written st `prefix_of` written st'
  ∧ logged st `prefix_of` logged st'
  ∧ (total_items st ≤ total_items st')%nat
  ∧ all_item_ids st ⊆ all_item_ids st'
  ∧ all_group_ids st ⊆ all_group_ids st'
  ∧ all_item_frame_ids st ⊆ all_item_frame_ids st'.

(** * Properties *)

#[local] Arguments String.append !_ _ / : simpl nomatch.

(** ** Strings *)

Lemma append_assoc (a b c : string) : (a +:+ b) +:+ c = a +:+ b +:+ c.
Proof. induction a as [|x a IH]; simpl; [done | by rewrite IH]. Qed.

Lemma length_append (a b : string) :
  String.length (a +:+ b) = (String.length a + String.length b)%nat.
Proof. induction a as [|x a IH]; simpl; [done | by rewrite IH]. Qed.

Lemma append_inj_l (a b s : string) : a +:+ s = b +:+ s → a = b.
Proof.
  revert b; induction a as [|x a IH]; intros [|y b] H; simpl in H.
  - done.
  - apply (f_equal String.length) in H. simpl in H.
    rewrite length_append in H. lia.
  - apply (f_equal String.length) in H. simpl in H.
    rewrite length_append in H. lia.
  - injection H as -> H. f_equal. by apply IH.
Qed.

Lemma split_cons_inv sep s : ∃ seg segs, Js.split sep s = seg :: segs.
Proof.
  induction s as [|a s IH]; simpl; [by eauto |].
  destruct (Ascii.eqb a sep); [by eauto |].
  destruct IH as (seg & segs & ->). by eauto.
Qed.

Lemma split_no_sep sep s : has_char sep s = false → Js.split sep s = [s].
Proof.
  induction s as [|a s IH]; simpl; [done |].
  destruct (Ascii.eqb a sep); simpl; [done |].
  intros H. by rewrite (IH H).
Qed.

Lemma split_append sep a b :
  has_char sep a = false →
  Js.split sep (a +:+ String sep b) = a :: Js.split sep b.
Proof.
  induction a as [|x a IH]; simpl.
  - by rewrite Ascii.eqb_refl.
  - destruct (Ascii.eqb x sep); simpl; [done |].
    intros H. by rewrite (IH H).
Qed.

Lemma split_head sep s :
  head (Js.split sep s) = Some (until_char sep s).
Proof.
  induction s as [|a s IH]; simpl; [done |].
  destruct (Ascii.eqb a sep); [done |].
  destruct (Js.split sep s) as [|seg segs]; simpl in *; [done |].
  by injection IH as ->.
Qed.

Lemma split_second sep s :
  Js.split sep s !! 1%nat = until_char sep <$> after_char sep s.
Proof.
  induction s as [|a s IH]; simpl; [done |].
  destruct (Ascii.eqb a sep); simpl.
  - rewrite <- split_head. by destruct (Js.split sep s).
  - destruct (split_cons_inv sep s) as (seg & segs & E).
    rewrite E in *. simpl in *. done.
Qed.

Lemma until_char_no_sep sep s : has_char sep s = false → until_char sep s = s.
Proof.
  induction s as [|a s IH]; simpl; [done |].
  destruct (Ascii.eqb a sep); simpl; [done |].
  intros H. by rewrite (IH H).
Qed.

Lemma after_char_no_sep sep s : has_char sep s = false → after_char sep s = None.
Proof.
  induction s as [|a s IH]; simpl; [done |].
  destruct (Ascii.eqb a sep); simpl; [done | auto].
Qed.

Lemma until_char_fixpoint sep s : until_char sep s = s ↔ has_char sep s = false.
Proof.
  split; [| apply until_char_no_sep].
  induction s as [|a s IH]; simpl; [done |].
  destruct (Ascii.eqb a sep); simpl; [done |].
  intros H. injection H as H. auto.
Qed.

Lemma has_char_append c a b :
  has_char c (a +:+ b) = has_char c a || has_char c b.
Proof.
  induction a as [|x a IH]; simpl; [done |].
  rewrite IH. by rewrite orb_assoc.
Qed.


(** ** [write_sort_file] *)






(** ** Item names *)

(** C5 (amended). The derived item name is the second segment of the
    identifier: the substring after the first colon, cut at the next colon.
    It is the whole substring after the first colon exactly when that
    substring holds no further colon. *)
Theorem item_name_is_second_segment item_id :
  item_name_of item_id = until_char ":" <$> after_char ":" item_id
  ∧ ∀ rest, after_char ":" item_id = Some rest →
      (item_name_of item_id = Some rest ↔ has_char ":" rest = false).
Proof.
  assert (item_name_of item_id = until_char ":" <$> after_char ":" item_id) as E
    by apply split_second.
  split; [exact E |].
  intros rest Hrest. rewrite E, Hrest. simpl.
  rewrite <- until_char_fixpoint. split; congruence.
Qed.

Lemma item_name_is_second_segment_witness :
  item_name_of "minecraft:iron_ingot" = Some "iron_ingot".
Proof.
  apply (proj2 (item_name_is_second_segment "minecraft:iron_ingot")
               "iron_ingot"); reflexivity.
Defined.

(** C5, as stated, fails on an identifier with two colons. *)
Lemma item_name_two_colons :
  after_char ":" "minecraft:potion:healing" = Some "potion:healing"
  ∧ item_name_of "minecraft:potion:healing" = Some "potion"
  ∧ item_name_of "minecraft:potion:healing"
    ≠ after_char ":" "minecraft:potion:healing"
  ∧ map filename (written (compile potions_config))
    = [ "sort_Potions.mcfunction"; "sort_item_potion.mcfunction";
        "sort.mcfunction" ].
Proof. repeat split; by vm_compute. Qed.

Lemma item_name_namespace ns rest :
  has_char ":" ns = false →
  item_name_of (ns +:+ String ":" rest) = Some (until_char ":" rest).
Proof.
  intros H. unfold item_name_of. rewrite (split_append _ _ _ H). simpl.
  rewrite <- split_head. by destruct (Js.split ":" rest).
Qed.

Lemma files_of_last {P : Type} `{Countable P} (path_join : string → P) ws w :
  files_of path_join (ws ++ [w]) !! path_join (filename w) = Some (content w).
Proof.
  unfold files_of, write_files. rewrite foldl_app. simpl.
  apply lookup_insert_eq.
Qed.

(** C1 (amended). Two per-item artifact names are equal exactly when the
    derived item names read the same once turned into strings; so two
    identifiers that differ in their namespace only are given one and the
    same artifact name. *)
Theorem item_file_name_eq_iff a b :
  (item_file_name a = item_file_name b
   ↔ Js.to_string (item_name_of a) = Js.to_string (item_name_of b))
  ∧ ∀ ns1 ns2 rest,
      has_char ":" ns1 = false → has_char ":" ns2 = false →
      a = ns1 +:+ String ":" rest → b = ns2 +:+ String ":" rest →
      item_file_name a = item_file_name b.
Proof.
  split.
  - unfold item_file_name. split; [| by intros ->].
    intros H. simpl in H. simplify_eq. by apply append_inj_l in H.
  - intros ns1 ns2 rest H1 H2 -> ->. unfold item_file_name.
    by rewrite (item_name_namespace _ _ H1), (item_name_namespace _ _ H2).
Qed.

Lemma item_file_name_eq_iff_witness :
  item_file_name "minecraft:stone" = item_file_name "mymod:stone".
Proof.
  apply (proj2 (item_file_name_eq_iff "minecraft:stone" "mymod:stone")
               "minecraft" "mymod" "stone"); reflexivity.
Defined.

(** ** The loop over the items of a group *)

Lemma has_mark k x (s : gset string) :
  Js.has k ({[x]} ∪ s) = String.eqb x k || Js.has k s.
Proof.
  unfold Js.has. destruct (String.eqb_spec x k) as [-> | Hne]; simpl.
  - rewrite bool_decide_eq_true_2; [done | set_solver].
  - f_equal. apply bool_decide_ext. set_solver.
Qed.

Lemma has_mono k (s1 s2 : gset string) :
  s1 ⊆ s2 → Js.has k s1 = true → Js.has k s2 = true.
Proof.
  unfold Js.has. intros Hsub H. apply orb_true_iff in H.
  apply orb_true_iff. destruct H as [H | H]; [left | by right].
  apply bool_decide_eq_true in H. apply bool_decide_eq_true. set_solver.
Qed.

(** One pass through the body of [items.forEach]: the file is written, the
    line pushed and the counter incremented whether or not the identifier
    was seen; an identifier already seen is reported besides. *)
Lemma process_item_effect cfg group_id st item_id :
  let st' := process_item cfg group_id st item_id in
  sort_lines st' = sort_lines st ++ [dispatch_line item_id]
  ∧ total_items st' = S (total_items st)
  ∧ written st' = written st ++ [item_write cfg group_id item_id]
  ∧ logged st' = logged st ++
      (if Js.has item_id (all_item_ids st) then [DuplicateItemId item_id] else [])
  ∧ all_item_ids st' = {[item_id]} ∪ all_item_ids st
  ∧ all_group_ids st' = all_group_ids st
  ∧ all_item_frame_ids st' = all_item_frame_ids st.
Proof.
  unfold process_item, write_sort_file. simpl.
  destruct (Js.has item_id (all_item_ids st)); simpl;
    rewrite ?app_nil_r; done.
Qed.

Lemma process_items_effect cfg group_id l st :
  let st' := foldl (process_item cfg group_id) st l in
  sort_lines st' = sort_lines st ++ map dispatch_line l
  ∧ total_items st' = (total_items st + length l)%nat
  ∧ written st' = written st ++ map (item_write cfg group_id) l
  ∧ logged st' = logged st ++ item_errors (all_item_ids st) l
  ∧ all_item_ids st' = list_to_set l ∪ all_item_ids st
  ∧ all_group_ids st' = all_group_ids st
  ∧ all_item_frame_ids st' = all_item_frame_ids st.
Proof.
  revert st. induction l as [|x l IH]; intros st; simpl.
  - rewrite !app_nil_r. repeat split; [lia | set_solver].
  - destruct (IH (process_item cfg group_id st x))
      as (-> & -> & -> & -> & -> & -> & ->).
    destruct (process_item_effect cfg group_id st x)
      as (-> & -> & -> & -> & -> & -> & ->).
    rewrite <- !app_assoc. simpl. repeat split; [lia | set_solver].
Qed.

(** ** The loop over the groups *)

Lemma with_prefixes_snoc {A} (before l : list A) x :
  with_prefixes before (l ++ [x])
  = with_prefixes before l ++ [(before ++ l, x)].
Proof.
  revert before. induction l as [|y l IH]; intros before; simpl.
  - by rewrite app_nil_r.
  - rewrite IH. by rewrite <- app_assoc.
Qed.

Lemma with_prefixes_app {A} (before l1 l2 : list A) :
  with_prefixes before (l1 ++ l2)
  = with_prefixes before l1 ++ with_prefixes (before ++ l1) l2.
Proof.
  revert before. induction l1 as [|y l1 IH]; intros before; simpl.
  - by rewrite app_nil_r.
  - rewrite IH. by rewrite <- app_assoc.
Qed.

Lemma frame_taken_snoc before g k :
  frame_taken (before ++ [g]) k
  = frame_taken before k
    || (passes_group_id_check before g && String.eqb (target_key g) k).
Proof.
  unfold frame_taken. rewrite with_prefixes_snoc, existsb_app. simpl.
  by rewrite orb_false_r.
Qed.

Lemma valid_groups_snoc gs g :
  valid_groups (gs ++ [g])
  = valid_groups gs ++ (if valid gs g then [g] else []).
Proof.
  unfold valid_groups.
  rewrite with_prefixes_snoc, filter_app, map_app. f_equal.
  rewrite filter_cons, filter_nil. simpl.
  destruct (valid gs g); by case_decide.
Qed.

Lemma processed_items_snoc gs g :
  processed_items (gs ++ [g])
  = processed_items gs ++ (if valid gs g then items_of g else []).
Proof.
  unfold processed_items.
  rewrite valid_groups_snoc, map_app, concat_app.
  destruct (valid gs g); simpl; by rewrite ?app_nil_r.
Qed.

Lemma existsb_forallb_negb {A} (f : A → bool) l :
  negb (forallb (fun x => negb (f x)) l) = existsb f l.
Proof.
  induction l as [|x l IH]; simpl; [done |].
  rewrite negb_andb, negb_involutive. by rewrite IH.
Qed.

Lemma group_id_check_reflect before st g :
  sets_reflect before st →
  Js.has (group_id_of g) (all_group_ids st)
  = negb (passes_group_id_check before g).
Proof.
  intros [Hg _]. rewrite Hg. unfold passes_group_id_check.
  by rewrite negb_andb, negb_involutive, existsb_forallb_negb.
Qed.

Lemma item_frame_check_reflect before st g :
  sets_reflect before st →
  Js.has (target_key g) (all_item_frame_ids st)
  = negb (passes_item_frame_check before g).
Proof.
  intros [_ Hf]. rewrite Hf. unfold passes_item_frame_check.
  by rewrite negb_andb, !negb_involutive.
Qed.

Lemma valid_rejection before g :
  valid before g = true ↔ rejection before g = None.
Proof.
  unfold valid, rejection.
  destruct (passes_group_id_check before g),
    (passes_item_frame_check before g), (complete g); simpl; split; done.
Qed.

(** The body of the loop, read with the checks of the specification. *)
Lemma process_group_step cfg before st g :
  sets_reflect before st →
  process_group cfg st g
  = match rejection before g with
    | Some (DuplicateGroupId _ as e) => console_error e st
    | Some (DuplicateFrameTarget _ as e) =>
        console_error e (mark_group (group_id_of g) st)
    | Some e =>
        console_error e
          (mark_item_frame (target_key g) (mark_group (group_id_of g) st))
    | None =>
        foldl (process_item cfg (group_id_of g))
          (write_file (group_write cfg g)
             (mark_item_frame (target_key g) (mark_group (group_id_of g) st)))
          (items_of g)
    end.
Proof.
  intros Hst. unfold process_group, rejection.
  rewrite (group_id_check_reflect before st g Hst).
  destruct (passes_group_id_check before g); simpl; [| done].
  rewrite (item_frame_check_reflect before st g Hst).
  destruct (passes_item_frame_check before g); simpl; [| done].
  destruct (complete g); simpl; done.
Qed.

Lemma process_group_effect cfg before st g :
  sets_reflect before st →
  let st' := process_group cfg st g in
  sort_lines st' = sort_lines st
      ++ (if valid before g then map dispatch_line (items_of g) else [])
  ∧ total_items st' = (total_items st
      + (if valid before g then length (items_of g) else 0))%nat
  ∧ written st' = written st
      ++ (if valid before g then artifacts_of cfg g else [])
  ∧ logged st' = logged st
      ++ match rejection before g with
         | Some e => [e]
         | None => item_errors (all_item_ids st) (items_of g)
         end
  ∧ all_item_ids st' = (if valid before g then list_to_set (items_of g) else ∅)
      ∪ all_item_ids st.
Proof.
  intros Hst. simpl. rewrite (process_group_step cfg before st g Hst).
  pose proof (valid_rejection before g) as Hv.
  destruct (rejection before g) as [e|].
  - assert (valid before g = false) as ->.
    { destruct (valid before g); [| done]. by destruct Hv as [Hv _]; discriminate Hv. }
    destruct e; simpl; rewrite ?app_nil_r;
      repeat split; try lia; set_solver.
  - assert (valid before g = true) as -> by by apply Hv.
    match goal with |- context [foldl ?f ?s ?l] =>
      destruct (process_items_effect cfg (group_id_of g) l s)
        as (-> & -> & -> & -> & -> & _)
    end.
    simpl. unfold artifacts_of. rewrite <- app_assoc. done.
Qed.

Lemma process_group_sets cfg before st g :
  sets_reflect before st →
  let st' := process_group cfg st g in
  all_group_ids st'
    = (if passes_group_id_check before g then {[group_id_of g]} else ∅)
      ∪ all_group_ids st
  ∧ all_item_frame_ids st'
    = (if passes_group_id_check before g && passes_item_frame_check before g
       then {[target_key g]} else ∅)
      ∪ all_item_frame_ids st.
Proof.
  intros Hst. simpl. rewrite (process_group_step cfg before st g Hst).
  unfold rejection.
  destruct (passes_group_id_check before g); simpl;
    [| split; set_solver].
  destruct (passes_item_frame_check before g); simpl;
    [| split; set_solver].
  destruct (complete g); simpl; [| split; set_solver].
  match goal with |- context [foldl ?f ?s ?l] =>
    destruct (process_items_effect cfg (group_id_of g) l s)
      as (_ & _ & _ & _ & _ & -> & ->)
  end.
  simpl. split; set_solver.
Qed.

Lemma has_empty_union k (s : gset string) : Js.has k (∅ ∪ s) = Js.has k s.
Proof. by rewrite (left_id_L ∅ (∪)). Qed.

Lemma process_group_reflect cfg before st g :
  sets_reflect before st →
  sets_reflect (before ++ [g]) (process_group cfg st g).
Proof.
  intros Hst.
  destruct (process_group_sets cfg before st g Hst) as [Eg Ef].
  pose proof (group_id_check_reflect before st g Hst) as Cg.
  pose proof (item_frame_check_reflect before st g Hst) as Cf.
  destruct Hst as [Hg Hf]. split; intros k.
  - rewrite Eg, existsb_app. simpl. rewrite orb_false_r.
    destruct (passes_group_id_check before g); simpl in *.
    + rewrite has_mark, Hg.
      destruct (String.eqb (group_id_of g) k); simpl;
        by rewrite ?orb_true_r, ?orb_false_r.
    + rewrite has_empty_union.
      destruct (String.eqb_spec (group_id_of g) k) as [<- | _].
      * by rewrite Cg, !orb_true_r.
      * by rewrite Hg, orb_false_r.
  - rewrite Ef, frame_taken_snoc.
    destruct (passes_group_id_check before g); simpl in *.
    + destruct (passes_item_frame_check before g); simpl in *.
      * rewrite has_mark, Hf.
        destruct (String.eqb (target_key g) k); simpl;
          by rewrite ?orb_true_r, ?orb_false_r.
      * rewrite has_empty_union.
        destruct (String.eqb_spec (target_key g) k) as [<- | _].
        -- by rewrite Cf, !orb_true_r.
        -- by rewrite Hf, orb_false_r.
    + by rewrite has_empty_union, Hf, orb_false_r.
Qed.

Lemma start_reflect cfg : sets_reflect [] (start cfg).
Proof.
  split; intros k; unfold Js.has; simpl;
    rewrite bool_decide_eq_false_2 by set_solver; by rewrite orb_false_r.
Qed.

Lemma process_groups_snoc cfg st gs g :
  process_groups cfg st (gs ++ [g])
  = process_group cfg (process_groups cfg st gs) g.
Proof. unfold process_groups. by rewrite foldl_app. Qed.

(** The state after the loop has gone through [gs], told from the
    configuration. *)
Lemma process_groups_effect cfg gs :
  let st := process_groups cfg (start cfg) gs in
  sets_reflect gs st
  ∧ sort_lines st = header cfg ++ map dispatch_line (processed_items gs)
  ∧ total_items st = length (processed_items gs)
  ∧ written st = concat (map (artifacts_of cfg) (valid_groups gs))
  ∧ logged st
    = concat (map (fun bg => group_errors bg.1 bg.2) (with_prefixes [] gs))
  ∧ all_item_ids st = list_to_set (processed_items gs).
Proof.
  cbv zeta. induction gs as [|g gs IH] using rev_ind.
  - split; [apply start_reflect |].
    cbn [process_groups foldl start start_with sort_lines total_items written
         logged all_item_ids processed_items valid_groups with_prefixes filter
         map concat length].
    rewrite app_nil_r. repeat split.
  - destruct IH as (Hst & Hl & Ht & Hw & He & Hi).
    rewrite process_groups_snoc.
    split; [by apply process_group_reflect |].
    destruct (process_group_effect cfg gs _ g Hst)
      as (-> & -> & -> & -> & ->).
    rewrite Hl, Ht, Hw, He, Hi.
    rewrite processed_items_snoc, valid_groups_snoc, with_prefixes_snoc.
    rewrite !map_app, !concat_app, length_app, <- !app_assoc.
    unfold group_errors.
    destruct (valid gs g); cbn [map concat length fst snd];
      rewrite ?app_nil_r; repeat split.
    + rewrite list_to_set_app_L. set_solver.
    + set_solver.
Qed.

Lemma finish_effect st :
  sort_lines (finish st) = sort_lines st
  ∧ total_items (finish st) = total_items st
  ∧ written (finish st)
    = written st ++ [Write Dispatcher "sort.mcfunction" (dispatcher_content st)]
  ∧ logged (finish st) = logged st.
Proof. done. Qed.

(** ** The dispatcher *)

Lemma filter_none {A} (f : A → bool) l :
  Forall (fun x => f x = false) l → filter f l = [].
Proof.
  induction 1 as [|x l Hx _ IH]; [done |].
  rewrite filter_cons, IH. case_decide as H; [| done].
  rewrite Hx in H. done.
Qed.

Lemma filter_all {A} (f : A → bool) l :
  Forall (fun x => f x = true) l → filter f l = l.
Proof.
  induction 1 as [|x l Hx _ IH]; [done |].
  rewrite filter_cons, IH. case_decide as H; [done |].
  rewrite Hx in H. by destruct H.
Qed.

Lemma prefix_append a b : String.prefix a (a +:+ b) = true.
Proof.
  induction a as [|x a IH]; simpl; [by destruct b |].
  by destruct (ascii_dec x x).
Qed.

Lemma dispatch_line_is_dispatch_line item_id :
  is_dispatch_line (dispatch_line item_id) = true.
Proof.
  unfold is_dispatch_line, dispatch_line.
  rewrite <- (append_assoc _ Js.dq). apply prefix_append.
Qed.

Lemma header_no_dispatch_line cfg :
  Forall (fun l => is_dispatch_line l = false) (header cfg).
Proof.
  unfold header. repeat (apply Forall_cons; split; [reflexivity |]).
  apply Forall_app. split.
  - unfold effect_lines. destruct (effects cfg) as [l|]; [| done].
    apply Forall_fmap, Forall_true. intros e. reflexivity.
  - repeat (apply Forall_cons; split; [reflexivity |]). done.
Qed.

Lemma dispatch_lines_filter cfg ids :
  filter is_dispatch_line (header cfg ++ map dispatch_line ids)
  = map dispatch_line ids.
Proof.
  rewrite filter_app, (filter_none _ _ (header_no_dispatch_line cfg)).
  apply filter_all, Forall_fmap, Forall_true. intros id.
  apply dispatch_line_is_dispatch_line.
Qed.

(** *** The text of the dispatcher *)

Lemma has_char_until c sep s :
  has_char c s = false → has_char c (until_char sep s) = false.
Proof.
  induction s as [|a s IH]; simpl; [done |].
  intros [Ha Hs]%orb_false_iff.
  destruct (Ascii.eqb a sep); simpl; [done |]. by rewrite Ha, IH.
Qed.

Lemma has_char_after c sep s r :
  after_char sep s = Some r → has_char c s = false → has_char c r = false.
Proof.
  induction s as [|a s IH]; simpl; [done |].
  intros Hr [Ha Hs]%orb_false_iff.
  destruct (Ascii.eqb a sep); [by simplify_eq | auto].
Qed.

Lemma item_name_single_line item_id :
  single_line item_id → single_line (Js.to_string (item_name_of item_id)).
Proof.
  unfold single_line, item_name_of. intros H. rewrite split_second.
  destruct (after_char ":" item_id) as [r|] eqn:E; simpl; [| done].
  eapply has_char_until, has_char_after; eauto.
Qed.

Lemma dispatch_line_single_line item_id :
  single_line item_id → single_line (dispatch_line item_id).
Proof.
  intros H. pose proof (item_name_single_line _ H) as Hn.
  unfold single_line, dispatch_line, Js.dq in *.
  rewrite !has_char_append, H, Hn. done.
Qed.

Lemma of_nat_single_line n : single_line (Js.of_nat n).
Proof.
  unfold single_line, Js.of_nat.
  induction (Nat.to_uint n) as [|u IH|u IH|u IH|u IH|u IH|u IH|u IH|u IH|u IH|u IH];
    simpl; done.
Qed.

Lemma join_single_line sep l :
  single_line sep → Forall single_line l → single_line (Js.join sep l).
Proof.
  unfold single_line. intros Hsep. induction 1 as [|x l Hx Hl IH]; [done |].
  simpl. destruct l as [|y l]; [done |].
  by rewrite !has_char_append, Hx, Hsep, IH.
Qed.

Lemma header_single_line cfg :
  Forall single_line (group_names cfg) →
  Forall single_line (default [] (effects cfg)) →
  Forall single_line (header cfg).
Proof.
  intros Hn He. unfold header.
  apply Forall_cons; split; [reflexivity |].
  apply Forall_cons; split; [reflexivity |].
  apply Forall_cons; split.
  { unfold single_line. rewrite !has_char_append.
    rewrite (of_nat_single_line _), (join_single_line ", " _ eq_refl Hn). done. }
  apply Forall_cons; split; [reflexivity |].
  apply Forall_app. split.
  - unfold effect_lines. destruct (effects cfg) as [l|]; [| done].
    apply Forall_fmap. eapply Forall_impl; [exact He |].
    intros e H. unfold compose, single_line, effect_line in *.
    by rewrite has_char_append, H.
  - repeat (apply Forall_cons; split; [reflexivity |]). done.
Qed.

Lemma text_lines_join l :
  l ≠ [] → Forall single_line l →
  text_lines (Js.join Js.nl l +:+ Js.nl) = l.
Proof.
  unfold text_lines, Js.nl. intros Hne H.
  induction H as [|x l Hx Hl IH]; [done |].
  destruct l as [|y l].
  - simpl. by rewrite (split_append _ _ _ Hx).
  - change (Js.join (String "010" "") (x :: y :: l))
      with (x +:+ String "010" (Js.join (String "010" "") (y :: l))).
    rewrite append_assoc.
    change (String "010" (Js.join (String "010" "") (y :: l)) +:+ String "010" "")
      with (String "010" (Js.join (String "010" "") (y :: l) +:+ String "010" "")).
    rewrite (split_append _ _ _ Hx).
    destruct (split_cons_inv "010"
                (Js.join (String "010" "") (y :: l) +:+ String "010" ""))
      as (seg & segs & E).
    rewrite E in *. simpl removelast. f_equal. apply IH. done.
Qed.

Lemma compile_effect cfg :
  let ids := processed_items (groups cfg) in
  sort_lines (compile cfg) = header cfg ++ map dispatch_line ids
  ∧ total_items (compile cfg) = length ids
  ∧ written (compile cfg)
    = concat (map (artifacts_of cfg) (valid_groups (groups cfg)))
      ++ [Write Dispatcher "sort.mcfunction"
            (Js.join Js.nl (header cfg ++ map dispatch_line ids) +:+ Js.nl)]
  ∧ logged (compile cfg)
    = concat (map (fun bg => group_errors bg.1 bg.2)
                  (with_prefixes [] (groups cfg))).
Proof.
  cbv zeta. unfold compile.
  destruct (process_groups_effect cfg (groups cfg))
    as (_ & Hl & Ht & Hw & He & _).
  destruct (finish_effect (process_groups cfg (start cfg) (groups cfg)))
    as (-> & -> & -> & ->).
  unfold dispatcher_content. by rewrite Hl, Ht, Hw, He.
Qed.

(** C6. The array [sort_lines] is the header followed by one dispatch line
    for each item of each valid group, in the order of the configuration;
    no line of the header is a dispatch line; the dispatcher is written last
    as these lines joined and closed by a line feed; and when no name,
    effect or processed identifier holds a line feed, the lines of that file
    are exactly the elements of [sort_lines]. *)
Theorem dispatcher_one_line_per_item cfg :
  let st := compile cfg in
  let ids := processed_items (groups cfg) in
  sort_lines st = header cfg ++ map dispatch_line ids
  ∧ filter is_dispatch_line (sort_lines st) = map dispatch_line ids
  ∧ last (written st)
    = Some (Write Dispatcher "sort.mcfunction"
              (Js.join Js.nl (sort_lines st) +:+ Js.nl))
  ∧ (config_single_line cfg →
     text_lines (Js.join Js.nl (sort_lines st) +:+ Js.nl) = sort_lines st).
Proof.
  cbv zeta. destruct (compile_effect cfg) as (Hl & _ & Hw & _).
  rewrite Hl, Hw. split; [done |].
  split; [apply dispatch_lines_filter |].
  split; [apply last_snoc |].
  intros (Hn & He & Hi). apply text_lines_join.
  - unfold header. done.
  - apply Forall_app. split; [by apply header_single_line |].
    apply Forall_fmap. eapply Forall_impl; [exact Hi |].
    intros id. apply dispatch_line_single_line.
Qed.

Lemma dispatcher_one_line_per_item_witness :
  config_single_line ores_config
  ∧ text_lines (Js.join Js.nl (sort_lines (compile ores_config)) +:+ Js.nl)
    = sort_lines (compile ores_config).
Proof.
  assert (config_single_line ores_config) as H.
  { repeat split; repeat constructor. }
  split; [exact H |].
  exact (proj2 (proj2 (proj2 (dispatcher_one_line_per_item ores_config))) H).
Defined.

(** ** The per-group artifacts *)

Lemma group_artifacts_of cfg g :
  group_artifacts (artifacts_of cfg g) = [group_write cfg g].
Proof.
  unfold group_artifacts, artifacts_of. rewrite filter_cons_True by done.
  f_equal. induction (items_of g) as [|x l IH]; [done |].
  simpl. rewrite filter_cons_False; [exact IH | done].
Qed.

Lemma valid_groups_elem gs g : g ∈ valid_groups gs → g ∈ gs.
Proof.
  induction gs as [|g' gs IH] using rev_ind; [done |].
  rewrite valid_groups_snoc, !elem_of_app. intros [H | H]; [left; auto |].
  destruct (valid gs g'); [by right | by apply elem_of_nil in H].
Qed.

Lemma valid_group_ids_NoDup gs : NoDup (map group_id_of (valid_groups gs)).
Proof.
  induction gs as [|g gs IH] using rev_ind; [constructor |].
  rewrite valid_groups_snoc. destruct (valid gs g) eqn:Hv;
    [| by rewrite app_nil_r].
  rewrite map_app. apply NoDup_app. split; [exact IH |].
  split; [| apply NoDup_singleton].
  intros id Hid Hg. apply list_elem_of_singleton in Hg as ->.
  apply list_elem_of_fmap in Hid as (p & Hp & Hin).
  apply valid_groups_elem, list_elem_of_In in Hin.
  unfold valid, passes_group_id_check in Hv.
  apply andb_true_iff in Hv as [Hv _]. apply andb_true_iff in Hv as [Hv _].
  apply andb_true_iff in Hv as [_ Hv].
  rewrite forallb_forall in Hv. specialize (Hv p Hin).
  by rewrite <- Hp, String.eqb_refl in Hv.
Qed.

Lemma group_file_name_inj a b : group_file_name a = group_file_name b → a = b.
Proof.
  unfold group_file_name. intros H. simpl in H. simplify_eq.
  by apply append_inj_l in H.
Qed.

(** C7. The writes of line 90 are, in order, those of the groups that pass
    the duplicate-groupId check, the duplicate-itemFrame check and the
    completeness check: there are as many of the ones as of the others, and
    no two of them bear the same file name. *)
Theorem group_artifact_count cfg :
  group_artifacts (written (compile cfg))
    = map (group_write cfg) (valid_groups (groups cfg))
  ∧ length (group_artifacts (written (compile cfg)))
    = length (valid_groups (groups cfg))
  ∧ NoDup (map filename (group_artifacts (written (compile cfg)))).
Proof.
  assert (group_artifacts (written (compile cfg))
          = map (group_write cfg) (valid_groups (groups cfg))) as E.
  { destruct (compile_effect cfg) as (_ & _ & -> & _).
    unfold group_artifacts at 1. rewrite filter_app.
    rewrite filter_cons_False, filter_nil, app_nil_r by done.
    induction (valid_groups (groups cfg)) as [|g l IH]; [done |].
    cbn [map concat]. rewrite filter_app, IH.
    pose proof (group_artifacts_of cfg g) as Hg.
    unfold group_artifacts in Hg. by rewrite Hg. }
  split; [exact E |]. split; [by rewrite E, length_map |].
  rewrite E, map_map.
  change (map (fun g => filename (group_write cfg g)) (valid_groups (groups cfg)))
    with (map (fun g => group_file_name (group_id_of g))
              (valid_groups (groups cfg))).
  rewrite <- (map_map group_id_of group_file_name).
  apply NoDup_fmap_2_strong; [| apply valid_group_ids_NoDup].
  intros a b _ _. apply group_file_name_inj.
Qed.

(** ** Items that share a name, items listed twice *)

(** C1, as stated, fails: two distinct identifiers of one valid group that
    differ in their namespace only derive the same name, and the file of the
    first is replaced: whatever paths the names resolve to, the file is not
    the one written for the first identifier when the run ends, and it is
    the one written for the second as soon as the dispatcher has a path of
    its own. *)
Lemma namespace_collision :
  processed_items (groups stones_config) = ["minecraft:stone"; "mymod:stone"]
  ∧ "minecraft:stone" ≠ "mymod:stone"
  ∧ item_name_of "minecraft:stone" = item_name_of "mymod:stone"
  ∧ item_file_name "minecraft:stone" = item_file_name "mymod:stone"
  ∧ item_write stones_config "Stones" "minecraft:stone"
      ∈ written (compile stones_config)
  ∧ (∀ (P : Type) (EqP : EqDecision P) (CP : Countable P)
       (path_join : string → P),
       files_of path_join (written (compile stones_config))
         !! path_join "sort_item_stone.mcfunction"
       ≠ Some (content (item_write stones_config "Stones" "minecraft:stone"))
       ∧ (path_join "sort.mcfunction" ≠ path_join "sort_item_stone.mcfunction" →
          files_of path_join (written (compile stones_config))
            !! path_join "sort_item_stone.mcfunction"
          = Some (content (item_write stones_config "Stones" "mymod:stone"))))
  ∧ content (item_write stones_config "Stones" "mymod:stone")
    ≠ content (item_write stones_config "Stones" "minecraft:stone").
Proof.
  split; [by vm_compute |]. split; [done |]. split; [by vm_compute |].
  split; [by vm_compute |]. split.
  { apply list_elem_of_lookup. by exists 1%nat. }
  split; [| by vm_compute].
  intros P EqP CP path_join.
  destruct (compile_effect stones_config) as (_ & _ & -> & _).
  assert (valid_groups (groups stones_config) = [stones]) as -> by done.
  cbn [map concat artifacts_of app].
  change (items_of stones) with ["minecraft:stone"; "mymod:stone"].
  cbn [map app]. unfold files_of, write_files.
  cbn [foldl filename content item_write group_write].
  change (item_file_name "minecraft:stone") with "sort_item_stone.mcfunction".
  change (item_file_name "mymod:stone") with "sort_item_stone.mcfunction".
  rewrite (lookup_insert _ (path_join "sort.mcfunction")).
  rewrite lookup_insert_eq. split.
  - case_decide; intros E; injection E as E; by vm_compute in E.
  - intros Hne. by case_decide.
Qed.

(** C2, as stated, fails: the second occurrence of an identifier in a valid
    group writes the item's file again, pushes a second dispatch line and
    is counted. *)
Lemma second_occurrence_emits :
  valid_groups (groups iron_twice_config) = [iron_twice]
  ∧ map filename (written (compile iron_twice_config))
    = [ "sort_Ores.mcfunction"; "sort_item_iron_ingot.mcfunction";
        "sort_item_iron_ingot.mcfunction"; "sort.mcfunction" ]
  ∧ filter is_dispatch_line (sort_lines (compile iron_twice_config))
    = [ dispatch_line "minecraft:iron_ingot";
        dispatch_line "minecraft:iron_ingot" ]
  ∧ total_items (compile iron_twice_config) = 2%nat
  ∧ logged (compile iron_twice_config)
    = [DuplicateItemId "minecraft:iron_ingot"].
Proof. repeat split; by vm_compute. Qed.

(** C2 (amended). When the loop over the items of a group comes to an
    identifier it has already gone through in this group, it does all that
    it did the first time (the same file with the same content is written,
    a dispatch line is pushed, the counter is incremented) and it reports
    the duplicate besides. *)
Theorem later_occurrence_effect cfg group_id st l1 item_id l2 :
  let first := foldl (process_item cfg group_id) st l1 in
  let later := foldl (process_item cfg group_id) st (l1 ++ item_id :: l2) in
  (written (process_item cfg group_id first item_id)
     = written first ++ [item_write cfg group_id item_id]
   ∧ sort_lines (process_item cfg group_id first item_id)
     = sort_lines first ++ [dispatch_line item_id]
   ∧ total_items (process_item cfg group_id first item_id)
     = S (total_items first))
  ∧ written (process_item cfg group_id later item_id)
    = written later ++ [item_write cfg group_id item_id]
  ∧ sort_lines (process_item cfg group_id later item_id)
    = sort_lines later ++ [dispatch_line item_id]
  ∧ total_items (process_item cfg group_id later item_id)
    = S (total_items later)
  ∧ logged (process_item cfg group_id later item_id)
    = logged later ++ [DuplicateItemId item_id].
Proof.
  cbv zeta.
  destruct (process_item_effect cfg group_id
              (foldl (process_item cfg group_id) st l1) item_id)
    as (-> & -> & -> & _).
  split; [done |].
  set (later := foldl (process_item cfg group_id) st (l1 ++ item_id :: l2)).
  destruct (process_item_effect cfg group_id later item_id)
    as (-> & -> & -> & -> & _).
  assert (Js.has item_id (all_item_ids later) = true) as ->; [| done].
  unfold later.
  destruct (process_items_effect cfg group_id (l1 ++ item_id :: l2) st)
    as (_ & _ & _ & _ & -> & _).
  unfold Js.has. rewrite bool_decide_eq_true_2; [done |].
  rewrite list_to_set_app_L, list_to_set_cons. set_solver.
Qed.

(** ** Groups and items in a run *)

Lemma elem_of_concat {A} (x : A) (ls : list (list A)) :
  x ∈ concat ls ↔ ∃ l, x ∈ l ∧ l ∈ ls.
Proof.
  induction ls as [|l ls IH]; simpl.
  - split; [by intros ?%elem_of_nil | by intros (l & _ & ?%elem_of_nil)].
  - rewrite elem_of_app, IH. split.
    + intros [H | (l' & H1 & H2)];
        [exists l | exists l']; split; try done;
        [apply list_elem_of_here | by apply list_elem_of_further].
    + intros (l' & H1 & H2). apply elem_of_cons in H2 as [-> | H2];
        [by left | right; by exists l'].
Qed.

Lemma valid_groups_middle pre g post :
  valid pre g = true → g ∈ valid_groups (pre ++ g :: post).
Proof.
  intros Hv. unfold valid_groups.
  rewrite with_prefixes_app. change ([] ++ pre) with pre.
  cbn [with_prefixes].
  rewrite filter_app, filter_cons_True by (simpl; by rewrite Hv).
  rewrite map_app. cbn [map snd]. apply elem_of_app. right.
  apply list_elem_of_here.
Qed.

Lemma processed_items_middle pre g post item_id :
  valid pre g = true → item_id ∈ items_of g →
  item_id ∈ processed_items (pre ++ g :: post).
Proof.
  intros Hv Hi. unfold processed_items.
  apply elem_of_concat. exists (items_of g). split; [done |].
  apply list_elem_of_fmap. exists g. split; [done |].
  by apply valid_groups_middle.
Qed.

Lemma item_write_written cfg pre g post item_id :
  groups cfg = pre ++ g :: post → valid pre g = true →
  item_id ∈ items_of g →
  item_write cfg (group_id_of g) item_id ∈ written (compile cfg).
Proof.
  intros Hgs Hv Hi. destruct (compile_effect cfg) as (_ & _ & -> & _).
  apply elem_of_app. left. apply elem_of_concat.
  exists (artifacts_of cfg g). split.
  - unfold artifacts_of. apply list_elem_of_further.
    apply list_elem_of_fmap. by exists item_id.
  - apply list_elem_of_fmap. exists g. split; [done |].
    rewrite Hgs. by apply valid_groups_middle.
Qed.

(** C10. An identifier without a colon in a valid group is processed like
    any other: its derived name is [undefined], its file is
    [sort_item_undefined.mcfunction], its dispatch line calls
    [mss:sort_item_undefined], and every other such identifier is given
    the same file name. *)
Theorem item_without_colon cfg pre g post item_id :
  groups cfg = pre ++ g :: post →
  valid pre g = true →
  item_id ∈ items_of g →
  has_char ":" item_id = false →
  item_name_of item_id = None
  ∧ Write ItemArtifact "sort_item_undefined.mcfunction"
      (sort_file_content (Some ("function mss:sort_" +:+ group_id_of g))
                         item_id (item_name_in_frame cfg))
      ∈ written (compile cfg)
  ∧ ("execute as @s if entity @s[type=item,nbt={Item:{id:" +:+ Js.dq
       +:+ item_id +:+ Js.dq +:+ "}}] run function mss:sort_item_undefined")
      ∈ sort_lines (compile cfg)
  ∧ ∀ other, has_char ":" other = false →
      item_file_name other = "sort_item_undefined.mcfunction".
Proof.
  intros Hgs Hv Hi Hc.
  assert (∀ s, has_char ":" s = false → item_name_of s = None) as Hnone.
  { intros s Hs. unfold item_name_of. by rewrite (split_no_sep _ _ Hs). }
  split; [by apply Hnone |]. split; [| split].
  - pose proof (item_write_written cfg pre g post item_id Hgs Hv Hi) as Hw.
    unfold item_write, item_file_name in Hw. by rewrite (Hnone _ Hc) in Hw.
  - destruct (compile_effect cfg) as (-> & _).
    apply elem_of_app. right.
    assert (dispatch_line item_id ∈ map dispatch_line (processed_items (groups cfg))) as Hd.
    { apply list_elem_of_fmap. exists item_id. split; [done |].
      rewrite Hgs. by apply processed_items_middle. }
    unfold dispatch_line in Hd. by rewrite (Hnone _ Hc) in Hd.
  - intros other Ho. unfold item_file_name. by rewrite (Hnone _ Ho).
Qed.

Lemma item_without_colon_witness :
  item_name_of "stick" = None
  ∧ Write ItemArtifact "sort_item_undefined.mcfunction"
      (sort_file_content (Some "function mss:sort_Misc") "stick" None)
      ∈ written (compile sticks_config).
Proof.
  destruct (item_without_colon sticks_config [] sticks [] "stick")
    as (H1 & H2 & _).
  - reflexivity.
  - reflexivity.
  - apply list_elem_of_here.
  - reflexivity.
  - split; [exact H1 | exact H2].
Defined.

(** ** Groups that are turned away *)

Lemma process_groups_app cfg st gs1 gs2 :
  process_groups cfg st (gs1 ++ gs2)
  = process_groups cfg (process_groups cfg st gs1) gs2.
Proof. unfold process_groups. by rewrite foldl_app. Qed.

(** C3. The run on two groups that both lack an item frame: the first is
    reported as an invalid group, the second is reported for a duplicate
    frame [undefined] and not as an invalid group, because the first has
    left the key [undefined] in [all_item_frame_ids]. *)
Lemma second_frameless_group :
  complete beta = false
  ∧ group_id_of beta ≠ group_id_of alpha
  ∧ logged (compile frameless_config)
    = [InvalidGroup "Alpha"; DuplicateFrameTarget "undefined"]
  ∧ InvalidGroup (group_id_of beta) ∉ logged (compile frameless_config).
Proof.
  split; [done |]. split; [by vm_compute |].
  assert (logged (compile frameless_config)
          = [InvalidGroup "Alpha"; DuplicateFrameTarget "undefined"]) as E
    by by vm_compute.
  split; [exact E |]. rewrite E.
  intros H. apply elem_of_cons in H as [H | H]; [by vm_compute in H |].
  apply elem_of_cons in H as [H | H]; [done |]. by apply elem_of_nil in H.
Qed.

(** C4, as stated, fails: a group turned away for its frame has left its id
    in [all_group_ids], and the next group of that name is turned away for
    its id, though its frame is new and it has items. *)
Lemma group_id_kept_after_frame_duplicate :
  rejection [iron] gems_on_iron
    = Some (DuplicateFrameTarget "minecraft:iron_block")
  ∧ "Gems" ∈ all_group_ids
               (process_groups shared_frame_config (start shared_frame_config)
                               [iron; gems_on_iron])
  ∧ complete gems = true
  ∧ logged (compile shared_frame_config)
    = [DuplicateFrameTarget "minecraft:iron_block"; DuplicateGroupId "Gems"]
  ∧ map filename (written (compile shared_frame_config))
    = [ "sort_Ores.mcfunction"; "sort_item_iron_ingot.mcfunction";
        "sort.mcfunction" ].
Proof.
  split; [by vm_compute |]. split.
  { apply (bool_decide_unpack _). by vm_compute. }
  repeat split; by vm_compute.
Qed.

(** C4 (amended). The id of a group is put in [all_group_ids] as soon as
    its own check passes, before the frame is looked at, and the frame is
    put in [all_item_frame_ids] only when both checks pass. So a group
    turned away for a duplicate frame leaves its id behind, and a later
    group that derives the same id is turned away with [DuplicateGroupId]
    and nothing else happens for it. *)
Theorem group_id_marked_before_frame_check cfg pre g mid later :
  rejection pre g = Some (DuplicateFrameTarget (target_key g)) →
  group_id_of later = group_id_of g →
  let st := process_groups cfg (start cfg) pre in
  let st1 := process_group cfg st g in
  let st2 := process_groups cfg st1 mid in
  all_group_ids st1 = {[group_id_of g]} ∪ all_group_ids st
  ∧ all_item_frame_ids st1 = all_item_frame_ids st
  ∧ process_group cfg st2 later
    = console_error (DuplicateGroupId (group_id_of later)) st2.
Proof.
  intros Hr Hid. cbv zeta.
  destruct (process_groups_effect cfg pre) as (Hst & _).
  destruct (process_group_sets cfg pre _ g Hst) as (-> & ->).
  assert (passes_group_id_check pre g = true
          ∧ passes_item_frame_check pre g = false) as [-> ->].
  { unfold rejection in Hr.
    destruct (passes_group_id_check pre g); simpl in Hr; [| done].
    destruct (passes_item_frame_check pre g); simpl in Hr; [| done].
    by destruct (complete g). }
  cbn [andb]. split; [done |]. split; [set_solver |].
  rewrite <- (process_groups_snoc cfg (start cfg) pre g).
  rewrite <- process_groups_app.
  destruct (process_groups_effect cfg ((pre ++ [g]) ++ mid)) as (Hst2 & _).
  rewrite (process_group_step cfg _ _ later Hst2).
  assert (passes_group_id_check ((pre ++ [g]) ++ mid) later = false) as Hp.
  { unfold passes_group_id_check. apply andb_false_iff. right.
    rewrite !forallb_app. simpl. rewrite Hid, String.eqb_refl. simpl.
    by rewrite andb_false_r. }
  unfold rejection. by rewrite Hp.
Qed.

Lemma group_id_marked_before_frame_check_witness :
  process_group shared_frame_config
    (process_groups shared_frame_config (start shared_frame_config)
                    [iron; gems_on_iron])
    gems
  = console_error (DuplicateGroupId "Gems")
      (process_groups shared_frame_config (start shared_frame_config)
                      [iron; gems_on_iron]).
Proof.
  exact (proj2 (proj2 (group_id_marked_before_frame_check shared_frame_config
                         [iron] gems_on_iron [] gems eq_refl eq_refl))).
Defined.

(** ** A second run *)





(** * Further properties of the generator *)

(** ** Names *)

Lemma strip_non_word_all_chars s :
  all_chars Js.is_word_char (Js.strip_non_word s) = true.
Proof.
  induction s as [|a s IH]; simpl; [done |].
  destruct (Js.is_word_char a) eqn:E; simpl; [by rewrite E |]. done.
Qed.

Lemma strip_non_word_fixpoint s :
  all_chars Js.is_word_char s = true → Js.strip_non_word s = s.
Proof.
  induction s as [|a s IH]; simpl; [done |].
  intros [Ha Hs]%andb_true_iff. rewrite Ha. by rewrite (IH Hs).
Qed.

Lemma all_chars_has_char p c s :
  all_chars p s = true → p c = false → has_char c s = false.
Proof.
  intros Hs Hc. induction s as [|a s IH]; simpl in *; [done |].
  apply andb_true_iff in Hs as [Ha Hs]. rewrite (IH Hs), orb_false_r.
  destruct (Ascii.eqb_spec a c) as [-> | _]; [congruence | done].
Qed.

(** X1. A group id is made of word characters only, whatever the group
    name: stripping it again changes nothing, and neither the id nor the
    name of the group's file holds a path separator. *)
Theorem group_id_word_chars g :
  all_chars Js.is_word_char (group_id_of g) = true
  ∧ Js.strip_non_word (group_id_of g) = group_id_of g
  ∧ has_char "/" (group_id_of g) = false
  ∧ has_char "/" (group_file_name (group_id_of g)) = false.
Proof.
  pose proof (strip_non_word_all_chars (group_name g)) as H.
  fold (group_id_of g) in H.
  assert (has_char "/" (group_id_of g) = false) as Hs
    by by apply (all_chars_has_char Js.is_word_char).
  split; [exact H |]. split; [by apply strip_non_word_fixpoint |].
  split; [exact Hs |].
  unfold group_file_name. by rewrite !has_char_append, Hs.
Qed.

Lemma until_char_no_char sep s : has_char sep (until_char sep s) = false.
Proof.
  induction s as [|a s IH]; simpl; [done |].
  destruct (Ascii.eqb a sep) eqn:E; simpl; [done |]. by rewrite E, IH.
Qed.

Lemma until_char_prefix sep s : ∃ rest, s = until_char sep s +:+ rest.
Proof.
  induction s as [|a s [r Hr]]; simpl; [by exists "" |].
  destruct (Ascii.eqb a sep); [by eexists |]. exists r. simpl. by f_equal.
Qed.

Lemma split_at_char sep s :
  has_char sep s = true →
  ∃ r, after_char sep s = Some r ∧ s = until_char sep s +:+ String sep r.
Proof.
  induction s as [|a s IH]; simpl; [done |].
  destruct (Ascii.eqb_spec a sep) as [-> | _]; simpl.
  - intros _. by exists s.
  - intros Hc. destruct (IH Hc) as (r & Hr & Hs). exists r.
    split; [done | by f_equal].
Qed.

(** X2. The derived item name never holds a colon, so the name of an item's
    file holds none either; and when the identifier has a colon, the
    identifier is made of its namespace, a colon, the derived name, and
    what follows. *)
Theorem item_name_no_colon item_id :
  has_char ":" (Js.to_string (item_name_of item_id)) = false
  ∧ has_char ":" (item_file_name item_id) = false
  ∧ (has_char ":" item_id = true →
     ∃ name rest,
       item_name_of item_id = Some name
       ∧ item_id = until_char ":" item_id +:+ String ":" (name +:+ rest)).
Proof.
  assert (has_char ":" (Js.to_string (item_name_of item_id)) = false) as H.
  { unfold item_name_of. rewrite split_second.
    destruct (after_char ":" item_id); simpl; [apply until_char_no_char | done]. }
  split; [exact H |]. split.
  { unfold item_file_name. by rewrite !has_char_append, H. }
  intros Hc. destruct (split_at_char ":" item_id Hc) as (r & Hr & Hs).
  destruct (until_char_prefix ":" r) as [rest Hrest].
  exists (until_char ":" r), rest. split.
  - unfold item_name_of. by rewrite split_second, Hr.
  - by rewrite <- Hrest.
Qed.

Lemma item_name_no_colon_witness :
  ∃ name rest,
    item_name_of "minecraft:potion:healing" = Some name
    ∧ "minecraft:potion:healing"
      = until_char ":" "minecraft:potion:healing" +:+ String ":" (name +:+ rest).
Proof.
  apply (proj2 (proj2 (item_name_no_colon "minecraft:potion:healing"))).
  reflexivity.
Defined.

(** ** Counters and errors *)

Lemma item_artifacts_of cfg g :
  item_artifacts (artifacts_of cfg g)
  = map (item_write cfg (group_id_of g)) (items_of g).
Proof.
  unfold item_artifacts, artifacts_of. rewrite filter_cons_False by done.
  induction (items_of g) as [|x l IH]; [done |].
  cbn [map]. rewrite filter_cons_True by done. by rewrite IH.
Qed.

Lemma item_artifacts_written cfg :
  item_artifacts (written (compile cfg))
  = concat (map (fun g => map (item_write cfg (group_id_of g)) (items_of g))
                (valid_groups (groups cfg))).
Proof.
  destruct (compile_effect cfg) as (_ & _ & -> & _).
  unfold item_artifacts at 1. rewrite filter_app.
  rewrite filter_cons_False, filter_nil, app_nil_r by done.
  induction (valid_groups (groups cfg)) as [|g l IH]; [done |].
  cbn [map concat]. rewrite filter_app, IH.
  pose proof (item_artifacts_of cfg g) as Hg.
  unfold item_artifacts in Hg. by rewrite Hg.
Qed.

(** X3. The counter [total_items] of a run is the number of dispatch lines
    of the dispatcher and the number of item files written: an identifier
    listed twice counts twice, an item of a group turned away does not
    count. *)
Theorem total_items_counts cfg :
  total_items (compile cfg)
    = length (filter is_dispatch_line (sort_lines (compile cfg)))
  ∧ total_items (compile cfg)
    = length (item_artifacts (written (compile cfg)))
  ∧ total_items (compile cfg) = length (processed_items (groups cfg)).
Proof.
  destruct (compile_effect cfg) as (Hl & Ht & _).
  rewrite Hl, Ht, dispatch_lines_filter, length_map.
  split; [done |]. split; [| done].
  rewrite item_artifacts_written. unfold processed_items.
  induction (valid_groups (groups cfg)) as [|g l IH]; [done |].
  cbn [map concat]. by rewrite !length_app, length_map, IH.
Qed.

Lemma rejections_snoc gs g :
  rejections (gs ++ [g])
  = rejections gs ++ (if valid gs g then [] else
                        match rejection gs g with Some e => [e] | None => [] end).
Proof.
  unfold rejections. rewrite with_prefixes_snoc, omap_app. f_equal.
  change ([] ++ gs) with gs.
  pose proof (valid_rejection gs g) as Hv. simpl.
  destruct (rejection gs g) as [e|]; destruct (valid gs g); try done.
  destruct Hv as [Hv _]. by specialize (Hv eq_refl).
Qed.

Lemma rejection_not_item_error before g e :
  rejection before g = Some e → is_item_error e = false.
Proof.
  unfold rejection. intros H.
  destruct (negb (passes_group_id_check before g)); [by simplify_eq |].
  destruct (negb (passes_item_frame_check before g)); [by simplify_eq |].
  destruct (negb (complete g)); by simplify_eq.
Qed.

Lemma item_errors_are_item_errors seen l :
  Forall (fun e => is_item_error e = true) (item_errors seen l).
Proof.
  revert seen. induction l as [|x l IH]; intros seen; simpl; [done |].
  apply Forall_app. split; [| apply IH].
  destruct (Js.has x seen); by repeat constructor.
Qed.

Lemma item_errors_app seen l1 l2 :
  item_errors seen (l1 ++ l2)
  = item_errors seen l1 ++ item_errors (list_to_set l1 ∪ seen) l2.
Proof.
  revert seen. induction l1 as [|x l1 IH]; intros seen; simpl.
  - by rewrite (left_id_L ∅ (∪)).
  - rewrite IH, <- app_assoc. do 3 f_equal. set_solver.
Qed.

Lemma filter_Forall {A} (P : A → Prop) `{!∀ x, Decision (P x)} l :
  Forall P l → filter P l = l.
Proof.
  induction 1 as [|x l Hx _ IH]; [done |].
  by rewrite filter_cons_True, IH.
Qed.

Lemma filter_Forall_not {A} (P : A → Prop) `{!∀ x, Decision (P x)} l :
  Forall (fun x => ¬ P x) l → filter P l = [].
Proof.
  induction 1 as [|x l Hx _ IH]; [done |].
  by rewrite filter_cons_False, IH.
Qed.

(** The errors of a run, sorted by kind. *)
Lemma logged_by_kind cfg gs :
  let st := process_groups cfg (start cfg) gs in
  filter (fun e => is_item_error e = false) (logged st) = rejections gs
  ∧ filter (fun e => is_item_error e = true) (logged st)
    = item_errors ∅ (processed_items gs).
Proof.
  cbv zeta. induction gs as [|g gs IH] using rev_ind; [done |].
  destruct IH as [IH1 IH2].
  destruct (process_groups_effect cfg (gs ++ [g])) as (_ & _ & _ & _ & He & _).
  destruct (process_groups_effect cfg gs) as (_ & _ & _ & _ & He' & _).
  rewrite He, with_prefixes_snoc, map_app, concat_app, <- He', !filter_app.
  change ([] ++ gs) with gs.
  rewrite IH1, IH2, rejections_snoc, processed_items_snoc, item_errors_app.
  cbn [map concat fst snd]. rewrite app_nil_r.
  rewrite (right_id_L ∅ (∪)). unfold group_errors.
  pose proof (valid_rejection gs g) as Hv.
  pose proof (rejection_not_item_error gs g) as Hn.
  destruct (rejection gs g) as [e|].
  - assert (valid gs g = false) as ->.
    { destruct (valid gs g); [| done]. by destruct Hv as [Hv _]; discriminate Hv. }
    specialize (Hn e eq_refl). cbn [item_errors].
    rewrite filter_cons_True, filter_cons_False, !filter_nil by congruence.
    done.
  - assert (valid gs g = true) as -> by by apply Hv.
    pose proof (item_errors_are_item_errors
                  (list_to_set (processed_items gs)) (items_of g)) as Hi.
    rewrite (filter_Forall _ _ Hi), filter_Forall_not, !app_nil_r; [done |].
    eapply Forall_impl; [exact Hi |]. intros e He1 He2. congruence.
Qed.

Lemma group_artifacts_written cfg :
  group_artifacts (written (compile cfg))
  = map (group_write cfg) (valid_groups (groups cfg)).
Proof.
  destruct (compile_effect cfg) as (_ & _ & -> & _).
  unfold group_artifacts at 1. rewrite filter_app.
  rewrite filter_cons_False, filter_nil, app_nil_r by done.
  induction (valid_groups (groups cfg)) as [|g l IH]; [done |].
  cbn [map concat]. rewrite filter_app, IH.
  pose proof (group_artifacts_of cfg g) as Hg.
  unfold group_artifacts in Hg. by rewrite Hg.
Qed.

Lemma rejections_valid_length gs :
  (length (valid_groups gs) + length (rejections gs))%nat = length gs.
Proof.
  induction gs as [|g gs IH] using rev_ind; [done |].
  rewrite valid_groups_snoc, rejections_snoc, !length_app.
  pose proof (valid_rejection gs g) as Hv.
  destruct (valid gs g); simpl; [lia |].
  destruct (rejection gs g); simpl; [lia |].
  destruct Hv as [_ Hv]. by specialize (Hv eq_refl).
Qed.

Lemma logged_compile cfg :
  logged (compile cfg)
  = logged (process_groups cfg (start cfg) (groups cfg)).
Proof. done. Qed.

(** X4. Every group of the configuration is accounted for once: either its
    file is written or exactly one error that is not about an item is
    logged for it. So the number of group files and the number of such
    errors add up to the number of groups that the header announces. *)
Theorem every_group_accounted cfg :
  filter (fun e => is_item_error e = false) (logged (compile cfg))
    = rejections (groups cfg)
  ∧ (length (group_artifacts (written (compile cfg)))
     + length (filter (fun e => is_item_error e = false) (logged (compile cfg))))%nat
    = length (group_names cfg).
Proof.
  destruct (logged_by_kind cfg (groups cfg)) as [E _].
  rewrite logged_compile, E. split; [done |].
  rewrite group_artifacts_written, length_map. unfold group_names.
  rewrite length_map. apply rejections_valid_length.
Qed.

Lemma has_empty k : Js.has k ∅ = Js.inherited k.
Proof.
  unfold Js.has. by rewrite bool_decide_eq_false_2 by set_solver.
Qed.

Lemma item_errors_elem seen l x :
  DuplicateItemId x ∈ item_errors seen l
  ↔ ∃ l1 l2, l = l1 ++ x :: l2 ∧ (Js.has x seen = true ∨ x ∈ l1).
Proof.
  revert seen. induction l as [|y l IH]; intros seen.
  - split; [by intros ?%elem_of_nil |].
    intros (l1 & l2 & H & _). by destruct l1.
  - cbn [item_errors]. rewrite elem_of_app, IH. split.
    + intros [H | (l1 & l2 & -> & H)].
      * destruct (Js.has y seen) eqn:E; [| by apply elem_of_nil in H].
        apply list_elem_of_singleton in H. simplify_eq.
        exists [], l. by split; [| left].
      * exists (y :: l1), l2. split; [done |].
        rewrite has_mark in H. destruct H as [H | H]; [| right; by right].
        apply orb_true_iff in H as [H | H]; [| by left].
        apply String.eqb_eq in H as ->. right. by left.
    + intros (l1 & l2 & E & H). destruct l1 as [|z l1]; simplify_eq/=.
      * left. destruct H as [-> | H]; [by left | by apply elem_of_nil in H].
      * right. exists l1, l2. split; [done |]. rewrite has_mark.
        destruct H as [H | H]; [left; by rewrite H, orb_true_r |].
        apply elem_of_cons in H as [-> | H]; [| by right].
        left. by rewrite String.eqb_refl.
Qed.

(** X5. Duplicate identifiers are found across the whole run, not group by
    group: [Duplicate Item ID] is logged for an identifier exactly when one
    of its occurrences among the items of the valid groups comes after
    another one, or when the identifier is a name inherited from
    [Object.prototype]. *)
Theorem duplicate_item_reported cfg x :
  DuplicateItemId x ∈ logged (compile cfg)
  ↔ ∃ l1 l2, processed_items (groups cfg) = l1 ++ x :: l2
             ∧ (Js.inherited x = true ∨ x ∈ l1).
Proof.
  destruct (logged_by_kind cfg (groups cfg)) as [_ E].
  rewrite <- logged_compile in E.
  rewrite <- (has_empty x), <- item_errors_elem, <- E.
  rewrite list_elem_of_filter. split; [by intros H | by intros [_ H]].
Qed.

Lemma duplicate_item_reported_witness :
  DuplicateItemId "minecraft:iron_ingot" ∈ logged (compile iron_twice_config).
Proof.
  apply (proj2 (duplicate_item_reported iron_twice_config
                  "minecraft:iron_ingot")).
  exists ["minecraft:iron_ingot"], []. split; [reflexivity |].
  right. apply list_elem_of_here.
Defined.

(** ** The groups that are emitted *)

Lemma with_prefixes_elem {A} (before l : list A) b x :
  (b, x) ∈ with_prefixes before l → x ∈ l.
Proof.
  revert before. induction l as [|y l IH]; intros before; simpl.
  - by intros ?%elem_of_nil.
  - intros [H | H]%elem_of_cons; [simplify_eq; by left |].
    right. by eapply IH.
Qed.

Lemma valid_groups_elem_prefix gs p :
  p ∈ valid_groups gs →
  ∃ b, (b, p) ∈ with_prefixes [] gs ∧ valid b p = true.
Proof.
  unfold valid_groups. intros ([b q] & -> & H)%list_elem_of_fmap.
  apply list_elem_of_filter in H as [Hv Hin]. simpl in *.
  exists b. split; [done |]. by destruct (valid b q).
Qed.

Lemma frame_taken_false gs k b p :
  frame_taken gs k = false → (b, p) ∈ with_prefixes [] gs →
  passes_group_id_check b p = true → target_key p ≠ k.
Proof.
  unfold frame_taken. intros Hf Hin Hp Hk.
  assert (existsb (fun bp => passes_group_id_check bp.1 bp.2
                             && String.eqb (target_key bp.2) k)
                  (with_prefixes [] gs) = true) as H; [| congruence].
  apply existsb_exists. exists (b, p). split; [by apply list_elem_of_In |].
  simpl. rewrite Hp, Hk. apply String.eqb_refl.
Qed.

Lemma valid_parts before g :
  valid before g = true →
  passes_group_id_check before g = true
  ∧ Js.inherited (group_id_of g) = false
  ∧ Js.inherited (target_key g) = false
  ∧ frame_taken before (target_key g) = false
  ∧ complete g = true.
Proof.
  unfold valid, passes_item_frame_check. intros H.
  apply andb_true_iff in H as [H Hc]. apply andb_true_iff in H as [Hg Hf].
  apply andb_true_iff in Hf as [Hf1 Hf2].
  apply negb_true_iff in Hf1. apply negb_true_iff in Hf2.
  repeat split; try done.
  unfold passes_group_id_check in Hg. apply andb_true_iff in Hg as [Hg _].
  by apply negb_true_iff in Hg.
Qed.

Lemma valid_group_frames_NoDup gs : NoDup (map target_key (valid_groups gs)).
Proof.
  induction gs as [|g gs IH] using rev_ind; [constructor |].
  rewrite valid_groups_snoc. destruct (valid gs g) eqn:Hv;
    [| by rewrite app_nil_r].
  rewrite map_app. apply NoDup_app. split; [exact IH |].
  split; [| apply NoDup_singleton].
  intros k Hk Hg. apply list_elem_of_singleton in Hg as ->.
  apply list_elem_of_fmap in Hk as (p & Hp & Hin).
  apply valid_groups_elem_prefix in Hin as (b & Hin & Hvp).
  apply valid_parts in Hv as (_ & _ & _ & Hf & _).
  apply valid_parts in Hvp as (Hgp & _).
  by apply (frame_taken_false gs _ b p Hf Hin Hgp).
Qed.

(** X6. The groups whose file is written have pairwise distinct frames, and
    each of them has a frame that is present and not empty and at least one
    item: no group file is ever written for an empty target or for an empty
    list of items. *)
Theorem emitted_groups_frames cfg :
  group_artifacts (written (compile cfg))
    = map (group_write cfg) (valid_groups (groups cfg))
  ∧ NoDup (map target_key (valid_groups (groups cfg)))
  ∧ Forall (fun g => item_frame g = Some (target_key g)
                     ∧ target_key g ≠ ""
                     ∧ items_of g ≠ [])
           (valid_groups (groups cfg)).
Proof.
  split; [apply group_artifacts_written |].
  split; [apply valid_group_frames_NoDup |].
  apply Forall_forall. intros g Hg.
  apply valid_groups_elem_prefix in Hg as (b & _ & Hv).
  apply valid_parts in Hv as (_ & _ & _ & _ & Hc).
  unfold complete, items_of, target_key in *.
  destruct (items g) as [[|x l]|]; try done.
  destruct (item_frame g) as [[|a f]|]; done.
Qed.

(** ** Runs without errors *)

Lemma item_errors_nil_iff seen l :
  item_errors seen l = []
  ↔ NoDup l ∧ Forall (fun x => Js.has x seen = false) l.
Proof.
  revert seen. induction l as [|y l IH]; intros seen.
  - split; [intros _; split; constructor | done].
  - cbn [item_errors]. rewrite NoDup_cons, Forall_cons. split.
    + intros [Hy Hl]%app_eq_nil. apply IH in Hl as [Hnd Hf].
      assert (Js.has y seen = false) as Hys
        by (destruct (Js.has y seen); done).
      assert (∀ x, x ∈ l → y ≠ x ∧ Js.has x seen = false) as Hx.
      { intros x Hin. rewrite Forall_forall in Hf. specialize (Hf x Hin).
        rewrite has_mark in Hf. apply orb_false_iff in Hf as [Hf1 Hf2].
        split; [by apply String.eqb_neq | done]. }
      split; [split; [| done] | split; [done |]].
      * intros Hin. by destruct (Hx y Hin).
      * apply Forall_forall. intros x Hin. by destruct (Hx x Hin).
    + intros [[Hy Hnd] [Hys Hf]]. rewrite Hys. simpl. apply IH.
      split; [done |]. apply Forall_forall. intros x Hin.
      rewrite Forall_forall in Hf. rewrite has_mark, (Hf x Hin), orb_false_r.
      apply String.eqb_neq. by intros ->.
Qed.

Lemma all_valid_complete gs :
  valid_groups gs = gs →
  Forall (fun g => complete g = true
                   ∧ Js.inherited (group_id_of g) = false
                   ∧ Js.inherited (target_key g) = false) gs.
Proof.
  intros H. apply Forall_forall. intros g Hg. rewrite <- H in Hg.
  apply valid_groups_elem_prefix in Hg as (b & _ & Hv).
  by apply valid_parts in Hv as (_ & ? & ? & _ & ?).
Qed.

Lemma valid_last gs g :
  NoDup (map group_id_of (gs ++ [g])) →
  NoDup (map target_key (gs ++ [g])) →
  complete g = true →
  Js.inherited (group_id_of g) = false →
  Js.inherited (target_key g) = false →
  valid gs g = true.
Proof.
  rewrite !map_app. intros Hg%NoDup_app Hk%NoDup_app Hc Hig Hik.
  destruct Hg as (_ & Hg & _). destruct Hk as (_ & Hk & _).
  unfold valid, passes_group_id_check, passes_item_frame_check.
  rewrite Hc, Hig, Hik, andb_true_r. simpl.
  apply andb_true_iff. split.
  - apply forallb_forall. intros p Hp. apply negb_true_iff.
    apply String.eqb_neq. intros E. apply (Hg (group_id_of g)).
    + rewrite <- E. apply list_elem_of_fmap_2. by apply list_elem_of_In.
    + simpl. by left.
  - apply negb_true_iff. destruct (frame_taken gs (target_key g)) eqn:Hf;
      [| done].
    unfold frame_taken in Hf. apply existsb_exists in Hf as ([b p] & Hin & H).
    apply andb_true_iff in H as [_ H]. apply String.eqb_eq in H. simpl in H.
    apply list_elem_of_In, with_prefixes_elem in Hin.
    exfalso. apply (Hk (target_key g)).
    + rewrite <- H. by apply list_elem_of_fmap_2.
    + simpl. by left.
Qed.

Lemma all_valid_iff gs :
  valid_groups gs = gs
  ↔ NoDup (map group_id_of gs)
    ∧ NoDup (map target_key gs)
    ∧ Forall (fun g => complete g = true
                       ∧ Js.inherited (group_id_of g) = false
                       ∧ Js.inherited (target_key g) = false) gs.
Proof.
  split.
  - intros H. pose proof (valid_group_ids_NoDup gs) as H1.
    pose proof (valid_group_frames_NoDup gs) as H2. rewrite H in H1, H2.
    split; [done |]. split; [done |]. by apply all_valid_complete.
  - induction gs as [|g gs IH] using rev_ind; [done |].
    intros (Hg & Hk & Hf). rewrite valid_groups_snoc.
    apply Forall_app in Hf as [Hf Hl].
    apply Forall_cons in Hl as [(Hc & Hig & Hik) _].
    rewrite (valid_last gs g Hg Hk Hc Hig Hik). f_equal. apply IH.
    rewrite !map_app in Hg, Hk.
    apply NoDup_app in Hg as (Hg & _). apply NoDup_app in Hk as (Hk & _).
    done.
Qed.

Lemma rejections_nil_iff gs : rejections gs = [] ↔ valid_groups gs = gs.
Proof.
  split.
  - induction gs as [|g gs IH] using rev_ind; [done |].
    rewrite rejections_snoc, valid_groups_snoc.
    intros [Hr Hl]%app_eq_nil. rewrite (IH Hr).
    pose proof (valid_rejection gs g) as Hv.
    destruct (valid gs g); [done |].
    destruct (rejection gs g); [done |].
    destruct Hv as [_ Hv]. by specialize (Hv eq_refl).
  - intros H. pose proof (rejections_valid_length gs) as Hl.
    rewrite H in Hl. destruct (rejections gs); [done | simpl in Hl; lia].
Qed.

Lemma errors_nil_by_kind (l : list error) :
  filter (fun e => is_item_error e = false) l = [] →
  filter (fun e => is_item_error e = true) l = [] →
  l = [].
Proof.
  destruct l as [|e l]; [done |]. intros H1 H2.
  destruct (is_item_error e) eqn:E.
  - by rewrite filter_cons_True in H2.
  - by rewrite filter_cons_True in H1.
Qed.

Lemma logged_nil_iff cfg :
  logged (compile cfg) = []
  ↔ rejections (groups cfg) = []
    ∧ item_errors ∅ (processed_items (groups cfg)) = [].
Proof.
  destruct (logged_by_kind cfg (groups cfg)) as [E1 E2].
  rewrite <- logged_compile in E1, E2. rewrite <- E1, <- E2. split.
  - by intros ->.
  - intros [H1 H2]. by apply errors_nil_by_kind.
Qed.

(** X7. A run logs no error exactly when its configuration is well formed:
    the group ids are pairwise distinct, so are the frames, every group has
    items and a frame, no item identifier is listed twice in the whole
    configuration, and none of these strings is a name inherited from
    [Object.prototype]. *)
Theorem no_error_iff_well_formed cfg :
  logged (compile cfg) = [] ↔ well_formed (groups cfg).
Proof.
  rewrite logged_nil_iff, rejections_nil_iff, item_errors_nil_iff.
  unfold well_formed. split.
  - intros (Hv & Hnd & Hf). pose proof (proj1 (all_valid_iff _) Hv) as (? & ? & ?).
    unfold processed_items in *. rewrite Hv in *.
    fold (all_items (groups cfg)) in *. repeat split; try done;
      (eapply Forall_impl; [exact Hf |]); intros x; by rewrite has_empty.
  - intros (Hg & Hk & Hc & Hnd & Hf).
    assert (valid_groups (groups cfg) = groups cfg) as Hv
      by by apply all_valid_iff.
    unfold processed_items. rewrite Hv. fold (all_items (groups cfg)).
    repeat split; try done;
      (eapply Forall_impl; [exact Hf |]); intros x; by rewrite has_empty.
Qed.

Lemma no_error_iff_well_formed_witness : logged (compile ores_config) = [].
Proof.
  apply (proj2 (no_error_iff_well_formed ores_config)).
  unfold well_formed. repeat split;
    apply (bool_decide_unpack _); by vm_compute.
Defined.

(** X8. On a well-formed configuration nothing is skipped: the dispatcher
    has one dispatch line for every item identifier the configuration
    lists, in order, every group has its file and every item its own, the
    counter is the number of identifiers listed, and the loop and line 114
    together call [fs.writeFileSync] once for each group, once for each
    identifier and once for the dispatcher (the six files that lines 117 to
    164 write afterwards are not among these). *)
Theorem well_formed_run cfg :
  well_formed (groups cfg) →
  sort_lines (compile cfg)
    = header cfg ++ map dispatch_line (all_items (groups cfg))
  ∧ group_artifacts (written (compile cfg))
    = map (group_write cfg) (groups cfg)
  ∧ item_artifacts (written (compile cfg))
    = concat (map (fun g => map (item_write cfg (group_id_of g)) (items_of g))
                  (groups cfg))
  ∧ total_items (compile cfg) = length (all_items (groups cfg))
  ∧ length (written (compile cfg))
    = (length (groups cfg) + length (all_items (groups cfg)) + 1)%nat.
Proof.
  intros (Hg & Hk & Hc & _).
  assert (valid_groups (groups cfg) = groups cfg) as Hv
    by by apply all_valid_iff.
  assert (processed_items (groups cfg) = all_items (groups cfg)) as Hp.
  { unfold processed_items. by rewrite Hv. }
  destruct (compile_effect cfg) as (Hl & Ht & Hw & _).
  rewrite Hl, Ht, group_artifacts_written, item_artifacts_written, Hw, Hv, Hp.
  repeat split. rewrite length_app. cbn [length].
  assert (length (concat (map (artifacts_of cfg) (groups cfg)))
          = (length (groups cfg) + length (all_items (groups cfg)))%nat) as ->;
    [| lia].
  clear. unfold all_items.
  induction (groups cfg) as [|g l IH]; [done |].
  cbn [map concat]. rewrite !length_app, IH. unfold artifacts_of.
  cbn [length]. rewrite length_map. lia.
Qed.

Lemma well_formed_run_witness :
  total_items (compile ores_config) = 2%nat
  ∧ length (written (compile ores_config)) = 4%nat.
Proof.
  assert (well_formed (groups ores_config)) as H.
  { unfold well_formed. repeat split;
      apply (bool_decide_unpack _); by vm_compute. }
  destruct (well_formed_run ores_config H) as (_ & _ & _ & Ht & Hw).
  split; [exact Ht | exact Hw].
Defined.

(** ** What the loop never undoes *)

Lemma extends_refl st : extends st st.
Proof. unfold extends. repeat split; done. Qed.

Lemma extends_trans st1 st2 st3 :
  extends st1 st2 → extends st2 st3 → extends st1 st3.
Proof.
  unfold extends. intros (? & ? & ? & ? & ? & ? & ?) (? & ? & ? & ? & ? & ? & ?).
  repeat split; try (by etrans); try lia; set_solver.
Qed.

Lemma console_error_extends e st : extends st (console_error e st).
Proof.
  unfold extends. simpl. repeat split; try done. by apply prefix_app_r.
Qed.

Lemma process_items_extends cfg group_id l st :
  extends st (foldl (process_item cfg group_id) st l).
Proof.
  destruct (process_items_effect cfg group_id l st)
    as (Hl & Ht & Hw & He & Hi & Hg & Hf).
  unfold extends. rewrite Hl, Ht, Hw, He, Hi, Hg, Hf.
  repeat split; try (by apply prefix_app_r); try lia; set_solver.
Qed.

Lemma process_group_extends cfg st g : extends st (process_group cfg st g).
Proof.
  unfold process_group.
  destruct (Js.has (group_id_of g) (all_group_ids st));
    [apply console_error_extends |].
  assert (extends st (mark_group (group_id_of g) st)) as H1.
  { unfold extends. simpl. repeat split; try done. set_solver. }
  destruct (Js.has (target_key g) _).
  { eapply extends_trans; [exact H1 | apply console_error_extends]. }
  assert (extends st (mark_item_frame (target_key g)
                        (mark_group (group_id_of g) st))) as H2.
  { eapply extends_trans; [exact H1 |].
    unfold extends. simpl. repeat split; try done. set_solver. }
  destruct (complete g).
  - eapply extends_trans; [exact H2 |].
    eapply extends_trans; [| apply process_items_extends].
    unfold extends, write_sort_file. simpl. repeat split; try done.
    by apply prefix_app_r.
  - eapply extends_trans; [exact H2 | apply console_error_extends].
Qed.

Lemma process_groups_extends_from cfg st gs :
  extends st (process_groups cfg st gs).
Proof.
  revert st. induction gs as [|g gs IH]; intros st.
  - apply extends_refl.
  - change (process_groups cfg st (g :: gs))
      with (process_groups cfg (process_group cfg st g) gs).
    eapply extends_trans; [apply process_group_extends | apply IH].
Qed.

Lemma group_id_seen_after cfg st g :
  Js.has (group_id_of g) (all_group_ids (process_group cfg st g)) = true.
Proof.
  unfold process_group.
  destruct (Js.has (group_id_of g) (all_group_ids st)) eqn:E; [exact E |].
  assert (Js.has (group_id_of g)
            (all_group_ids (mark_group (group_id_of g) st)) = true) as Hm.
  { simpl. by rewrite has_mark, String.eqb_refl. }
  destruct (Js.has (target_key g) _); [exact Hm |].
  destruct (complete g); [| exact Hm].
  match goal with |- context [foldl ?f ?s ?l] =>
    destruct (process_items_effect cfg (group_id_of g) l s)
      as (_ & _ & _ & _ & _ & -> & _)
  end.
  exact Hm.
Qed.

(** X10. A group id is let through at most once in the life of the three
    sets: once the loop has looked at a group, whatever state it started
    from and whatever became of that group, every later group that derives
    the same id is turned away with [DuplicateGroupId] and leaves
    everything else as it was. *)
Theorem group_id_used_once cfg st g mid later :
  group_id_of later = group_id_of g →
  let st' := process_groups cfg (process_group cfg st g) mid in
  process_group cfg st' later
  = console_error (DuplicateGroupId (group_id_of later)) st'.
Proof.
  intros E. cbv zeta.
  set (st1 := process_group cfg st g).
  assert (Js.has (group_id_of later)
            (all_group_ids (process_groups cfg st1 mid)) = true) as H.
  { rewrite E. destruct (process_groups_extends_from cfg st1 mid)
      as (_ & _ & _ & _ & _ & Hsub & _).
    eapply has_mono; [exact Hsub | apply group_id_seen_after]. }
  unfold process_group at 1. by rewrite H.
Qed.

Lemma group_id_used_once_witness :
  process_group ores_config
    (process_groups ores_config
       (process_group ores_config (start ores_config) ores) [])
    ores
  = console_error (DuplicateGroupId "Ores")
      (process_groups ores_config
         (process_group ores_config (start ores_config) ores) []).
Proof.
  exact (group_id_used_once ores_config (start ores_config) ores [] ores
           eq_refl).
Defined.

(** ** The function directory *)

Lemma files_of_snoc {P : Type} `{Countable P} (path_join : string → P) ws w :
  files_of path_join (ws ++ [w])
  = <[path_join (filename w) := content w]> (files_of path_join ws).
Proof. unfold files_of, write_files. by rewrite foldl_app. Qed.

Lemma files_of_elem {P : Type} `{Countable P} (path_join : string → P) ws w :
  w ∈ ws → is_Some (files_of path_join ws !! path_join (filename w)).
Proof.
  induction ws as [|w' ws IH] using rev_ind; [by intros ?%elem_of_nil |].
  rewrite files_of_snoc, lookup_insert_is_Some.
  intros [Hin | Hin]%elem_of_app.
  - destruct (decide (path_join (filename w') = path_join (filename w)));
      [by left | right; auto].
  - apply list_elem_of_singleton in Hin as ->. by left.
Qed.

Lemma valid_groups_of_item gs x :
  x ∈ processed_items gs → ∃ g, g ∈ valid_groups gs ∧ x ∈ items_of g.
Proof.
  unfold processed_items. intros (l & Hx & Hl)%elem_of_concat.
  apply list_elem_of_fmap in Hl as (g & -> & Hg). by exists g.
Qed.

Lemma artifacts_written cfg g :
  g ∈ valid_groups (groups cfg) →
  ∀ w, w ∈ artifacts_of cfg g → w ∈ written (compile cfg).
Proof.
  intros Hg w Hw. destruct (compile_effect cfg) as (_ & _ & -> & _).
  apply elem_of_app. left. apply elem_of_concat.
  exists (artifacts_of cfg g). split; [done |]. by apply list_elem_of_fmap_2.
Qed.

(** X11. Whatever the dispatcher calls is there to be called: for every
    item of a valid group, the dispatcher has a line that calls
    [mss:sort_item_N], the run has written [sort_item_N.mcfunction] with a
    fallback to [mss:sort_G] for a valid group [G] that lists the item, and
    the function directory holds both [sort_item_N.mcfunction] and
    [sort_G.mcfunction] when the run ends, whatever paths the names resolve
    to. *)
Theorem dispatcher_targets_exist cfg item_id :
  item_id ∈ processed_items (groups cfg) →
  ∃ n g,
    g ∈ valid_groups (groups cfg) ∧ item_id ∈ items_of g
    ∧ ("execute as @s if entity @s[type=item,nbt={Item:{id:" +:+ Js.dq
         +:+ item_id +:+ Js.dq +:+ "}}] run function mss:sort_item_" +:+ n)
        ∈ sort_lines (compile cfg)
    ∧ Write ItemArtifact ("sort_item_" +:+ n +:+ ".mcfunction")
        (sort_file_content (Some ("function mss:sort_" +:+ group_id_of g))
                           item_id (item_name_in_frame cfg))
        ∈ written (compile cfg)
    ∧ ∀ (P : Type) (EqP : EqDecision P) (CP : Countable P)
        (path_join : string → P),
        is_Some (files_of path_join (written (compile cfg))
                   !! path_join ("sort_item_" +:+ n +:+ ".mcfunction"))
        ∧ is_Some (files_of path_join (written (compile cfg))
                     !! path_join ("sort_" +:+ group_id_of g +:+ ".mcfunction")).
Proof.
  intros Hx. destruct (valid_groups_of_item _ _ Hx) as (g & Hg & Hi).
  exists (Js.to_string (item_name_of item_id)), g.
  assert (item_write cfg (group_id_of g) item_id ∈ written (compile cfg)) as Hw.
  { apply (artifacts_written cfg g Hg). unfold artifacts_of.
    right. by apply list_elem_of_fmap_2. }
  assert (group_write cfg g ∈ written (compile cfg)) as Hgw.
  { apply (artifacts_written cfg g Hg). unfold artifacts_of. by left. }
  split; [done |]. split; [done |]. split.
  { destruct (compile_effect cfg) as (-> & _). apply elem_of_app. right.
    by apply (list_elem_of_fmap_2 dispatch_line). }
  split; [exact Hw |]. intros P EqP CP path_join. split.
  - exact (files_of_elem path_join _ _ Hw).
  - exact (files_of_elem path_join _ _ Hgw).
Qed.

Lemma dispatcher_targets_exist_witness :
  ∃ n g,
    g ∈ valid_groups (groups ores_config)
    ∧ is_Some (files_of id (written (compile ores_config))
                 !! ("sort_item_" +:+ n +:+ ".mcfunction"))
    ∧ is_Some (files_of id (written (compile ores_config))
                 !! ("sort_" +:+ group_id_of g +:+ ".mcfunction")).
Proof.
  destruct (dispatcher_targets_exist ores_config "minecraft:gold_ingot")
    as (n & g & Hg & _ & _ & _ & Hf).
  - apply (bool_decide_unpack _). by vm_compute.
  - exists n, g. split; [exact Hg |]. exact (Hf string _ _ id).
Defined.

(** *** When every file of the loop is kept *)








